(** * Token expansion of zync_maya.py

    A shallow embedding of [expandFileTokens] and its helper [_substitute]
    (src/zync_maya.py, lines 46-112), together with the parts of the Python
    library they call: [str.replace], [str.join], [str.split], [re.split]
    for the two compiled patterns, [shlex.split] and [dict(...)].

    Python 2 byte strings are modelled as [string]; the [tokens] dictionary
    as a [gmap string (option string)], where the value [None] stands for
    Python's [None]. *)

From Stdlib Require Import Ascii.
From stdpp Require Import base option list gmap strings.

(** ** Strings *)

Module Str.

(** [''.join(parts)] *)
Definition join (parts : list string) : string := foldr String.app "" parts.

(** [s.replace(old, new)] for one-character [old] and [new]. *)
Fixpoint replace (old new : ascii) (s : string) : string :=
  match s with
  | "" => ""
  | String a s' => String (if Ascii.eqb a old then new else a) (replace old new s')
  end.

(** [s.split(sep)] for a one-character separator: the fields between the
    occurrences of [sep], empty fields included. *)
Fixpoint split (sep : ascii) (s : string) : list string :=
  match s with
  | "" => [""]
  | String a s' =>
      if Ascii.eqb a sep then "" :: split sep s'
      else match split sep s' with
           | field :: fields => String a field :: fields
           | [] => [String a ""]
           end
  end.

(** [a in s] for a character [a]. *)
Fixpoint mem (a : ascii) (s : string) : bool :=
  match s with
  | "" => false
  | String b s' => Ascii.eqb a b || mem a s'
  end.

(** ['<%s>' % tok] *)
Definition angle (tok : string) : string := "<" +:+ tok +:+ ">".

End Str.

(** ** Regular expressions

    Both patterns of [expandFileTokens] have the shape [o([cls]+)c]: an
    opening character, a captured greedy run of one or more characters of a
    class, a closing character. *)

Record regex := Regex {
  re_open : ascii;
  re_class : ascii → bool;
  re_close : ascii
}.

Module Re.
Section Matching.
Variable r : regex.

(** [([cls]+)c] at the start of [s]: the capture and the text after the
    match.  The repetition is greedy: a longer run is tried first, and the
    run stops where it is only when no longer one leads to a match. *)
Fixpoint match_plus (s : string) : option (string * string) :=
  match s with
  | "" => None
  | String a s' =>
      if re_class r a then
        match match_plus s' with
        | Some (cap, rest) => Some (String a cap, rest)
        | None =>
            match s' with
            | String b rest => if Ascii.eqb b (re_close r) then Some (String a "", rest) else None
            | "" => None
            end
        end
      else None
  end.

(** The whole pattern at the start of [s]. *)
Definition match_at (s : string) : option (string * string) :=
  match s with
  | "" => None
  | String a s' => if Ascii.eqb a (re_open r) then match_plus s' else None
  end.

(** Leftmost match: the text before it, the capture, the text after it. *)
Fixpoint search (s : string) : option (string * string * string) :=
  match match_at s with
  | Some (cap, rest) => Some ("", cap, rest)
  | None =>
      match s with
      | "" => None
      | String a s' =>
          match search s' with
          | Some (pre, cap, rest) => Some (String a pre, cap, rest)
          | None => None
          end
      end
  end.

(** [r.split(s)]: the texts between successive matches, with the capture
    of each match in between.  A match consumes at least one character,
    so [String.length s] rounds are enough. *)
Fixpoint split_rounds (n : nat) (s : string) : list string :=
  match n with
  | O => [s]
  | S n' =>
      match search s with
      | None => [s]
      | Some (pre, cap, rest) => pre :: cap :: split_rounds n' rest
      end
  end.

Definition split (s : string) : list string := split_rounds (String.length s) s.

End Matching.
End Re.

(** [a-zA-Z] *)
Definition is_alpha (a : ascii) : bool :=
  let n := nat_of_ascii a in
  (Nat.leb 97 n && Nat.leb n 122) || (Nat.leb 65 n && Nat.leb n 90).

(** [re.compile('\[([^\]]+)\]')] *)
Definition grp_reg : regex := Regex "[" (λ a, negb (Ascii.eqb a "]")) "]".

(** [re.compile('<([a-zA-Z]+)>')] *)
Definition tok_reg : regex := Regex "<" is_alpha ">".

(** ** The source functions *)

(** [bool(num % 2)]: true on the odd numbers, whatever the name says. *)
Definition even (num : nat) : bool := negb (Nat.eqb (num mod 2) 0).

(** [not bool(num % 2)] *)
Definition odd (num : nat) : bool := negb (negb (Nat.eqb (num mod 2) 0)).

(** The outcome of one round of the loop of [_substitute]: the round either
    leaves an extended [result] list, or returns from the function. *)
Inductive round := Continue (result : list string) | Return (value : string).

(** The body of the [for] loop of [_substitute] (lines 55-73); a missing key
    is the [KeyError] branch. *)
Definition substitute_round (tokens : gmap string (option string))
    (allOrNothing leaveUnmatchedTokens : bool)
    (i : nat) (tok : string) (result : list string) : round :=
  if even i then
    match tokens !! tok with
    | Some None => Continue (result ++ [Str.angle tok])
    | Some (Some tokn) => Continue (result ++ [Str.replace ":" "_" tokn])
    | None =>
        if allOrNothing then
          if leaveUnmatchedTokens then Return (Str.angle tok) else Return ""
        else if leaveUnmatchedTokens then Continue (result ++ [Str.angle tok])
        else Continue (result ++ [""])
    end
  else Continue (result ++ [tok]).

(** [for i, tok in enumerate(parts): ...; return ''.join(result)], from
    index [i] on. *)
Fixpoint substitute_loop (tokens : gmap string (option string))
    (allOrNothing leaveUnmatchedTokens : bool)
    (i : nat) (parts : list string) (result : list string) : string :=
  match parts with
  | [] => Str.join result
  | tok :: parts' =>
      match substitute_round tokens allOrNothing leaveUnmatchedTokens i tok result with
      | Continue result' =>
          substitute_loop tokens allOrNothing leaveUnmatchedTokens (S i) parts' result'
      | Return value => value
      end
  end.

Definition _substitute (parts : list string) (tokens : gmap string (option string))
    (allOrNothing leaveUnmatchedTokens : bool) : string :=
  substitute_loop tokens allOrNothing leaveUnmatchedTokens 0 parts [].

(** The loop of [expandFileTokens] (lines 105-112) over the groups from index
    [i] on. *)
Fixpoint expand_loop (tokens : gmap string (option string)) (leaveUnmatchedTokens : bool)
    (i : nat) (grps : list string) (result : list string) : string :=
  match grps with
  | [] => Str.join result
  | grp :: grps' =>
      let parts := Re.split tok_reg grp in
      expand_loop tokens leaveUnmatchedTokens (S i) grps'
        (result ++ [_substitute parts tokens (even i) leaveUnmatchedTokens])
  end.

(** Lines 103-112: [expandFileTokens] once [tokens] is a dictionary; this is
    the operation [expand] of the specification. *)
Definition expand (path : string) (tokens : gmap string (option string))
    (leaveUnmatchedTokens : bool) : string :=
  expand_loop tokens leaveUnmatchedTokens 0 (Re.split grp_reg path) [].

(** ** The string form of [tokens] (lines 100-101) *)

Inductive exn := ValueError.

Module Shlex.

(** [shlex.split(s)]: a POSIX-mode lexer with [whitespace_split] set and no
    comment characters.  [self.state] is one of [' '], ['a'], a quote
    character or the escape character; [None] (past the end of the input)
    is reached only when the input is exhausted. *)
Inductive state := Blank | Word | Quote (q : ascii) | Escape (e : ascii).

Definition whitespace (a : ascii) : bool := Str.mem a (String " " (String "009" (String "013" (String "010" "")))).
Definition quotes (a : ascii) : bool := Str.mem a (String "039" (String "034" "")).
Definition escape (a : ascii) : bool := Str.mem a "\".
Definition escapedquotes (a : ascii) : bool := Str.mem a (String "034" "").

Definition in_quotes (st : state) : bool :=
  match st with Quote _ => true | _ => false end.

Definition nonempty (token : string) : bool :=
  match token with "" => false | _ => true end.

Definition snoc (token : string) (a : ascii) : string := token +:+ String a "".

Definition emit (token : string) (more : exn + list string) : exn + list string :=
  match more with
  | inl e => inl e
  | inr tokens => inr (token :: tokens)
  end.

(** [read_token], called again after each token it returns: [quoted],
    [escapedstate] and [token] start afresh at each call, [self.state]
    is kept.  At the end of the input the last token is returned when it
    is not empty or was quoted, and the next call returns [None], which
    ends the iteration. *)
Fixpoint read_token (st : state) (quoted : bool) (escapedstate : state)
    (token : string) (instream : string) : exn + list string :=
  match instream with
  | "" =>
      match st with
      | Blank | Word => inr (if nonempty token || quoted then [token] else [])
      | Quote _ => inl ValueError
      | Escape _ => inl ValueError
      end
  | String nextchar rest =>
      match st with
      | Blank =>
          if whitespace nextchar then
            if nonempty token || quoted
            then emit token (read_token Blank false Blank "" rest)
            else read_token Blank quoted escapedstate token rest
          else if escape nextchar then
            read_token (Escape nextchar) quoted Word token rest
          else if quotes nextchar then
            read_token (Quote nextchar) quoted escapedstate token rest
          else
            read_token Word quoted escapedstate (String nextchar "") rest
      | Quote q =>
          if Ascii.eqb nextchar q then
            read_token Word true escapedstate token rest
          else if escape nextchar && escapedquotes q then
            read_token (Escape nextchar) true (Quote q) token rest
          else
            read_token (Quote q) true escapedstate (snoc token nextchar) rest
      | Escape e =>
          let token :=
            if in_quotes escapedstate && negb (Ascii.eqb nextchar e)
               && negb (match escapedstate with Quote q => Ascii.eqb nextchar q | _ => false end)
            then snoc token e else token in
          read_token escapedstate quoted escapedstate (snoc token nextchar) rest
      | Word =>
          if whitespace nextchar then
            if nonempty token || quoted
            then emit token (read_token Blank false Blank "" rest)
            else read_token Blank quoted escapedstate token rest
          else if quotes nextchar then
            read_token (Quote nextchar) quoted escapedstate token rest
          else if escape nextchar then
            read_token (Escape nextchar) quoted Word token rest
          else
            read_token Word quoted escapedstate (snoc token nextchar) rest
      end
  end.

Definition split (s : string) : exn + list string := read_token Blank false Blank "" s.

End Shlex.

(** [dict(pairs)] for a list of lists of strings: every element must have
    exactly two items; a later pair overrides an earlier one with its key. *)
Fixpoint dict (pairs : list (list string)) (d : gmap string (option string))
    : exn + gmap string (option string) :=
  match pairs with
  | [] => inr d
  | [key; value] :: pairs' => dict pairs' (<[key := Some value]> d)
  | _ :: _ => inl ValueError
  end.

(** The [tokens] argument: a dictionary or a string. *)
Inductive tokens_arg :=
| TokensDict (d : gmap string (option string))
| TokensStr (s : string).

Definition expandFileTokens (path : string) (tokens : tokens_arg)
    (leaveUnmatchedTokens : bool) : exn + string :=
  match tokens with
  | TokensDict d => inr (expand path d leaveUnmatchedTokens)
  | TokensStr s =>
      match Shlex.split s with
      | inl e => inl e
      | inr pairs =>
          match dict (Str.split "=" <$> pairs) ∅ with
          | inl e => inl e
          | inr d => inr (expand path d leaveUnmatchedTokens)
          end
      end
  end.

(** ** The caller's objects

    A Python dictionary is an object: the caller hands over a reference,
    and what the function does to the dictionary behind it the caller would
    see.  Here the functions are written once more over a heap of
    dictionaries, threading the heap through every step. *)

Module Heap.

Definition M (A : Type) : Type :=
  gmap nat (gmap string (option string)) → (exn + A) * gmap nat (gmap string (option string)).

Definition ret {A} (a : A) : M A := λ h, (inr a, h).

Definition raise {A} (e : exn) : M A := λ h, (inl e, h).

Definition bind {A B} (m : M A) (k : A → M B) : M B :=
  λ h, match m h with
       | (inl e, h') => (inl e, h')
       | (inr a, h') => k a h'
       end.

Notation "'let*' x := m 'in' k" := (bind m (λ x, k))
  (at level 10, x name, m at level 100, k at level 200).

(** [tokens[tok]] through the reference; [None] is the [KeyError]. *)
Definition getitem (tokens : nat) (tok : string) : M (option (option string)) :=
  λ h, (inr (h !! tokens ≫= λ d, d !! tok), h).

(** A new dictionary object, at a reference the heap does not use. *)
Definition alloc (d : gmap string (option string)) : M nat :=
  λ h, let r := fresh (dom h) in (inr r, <[r := d]> h).

Definition substitute_round (tokens : nat) (allOrNothing leaveUnmatchedTokens : bool)
    (i : nat) (tok : string) (result : list string) : M round :=
  if even i then
    let* found := getitem tokens tok in
    match found with
    | Some None => ret (Continue (result ++ [Str.angle tok]))
    | Some (Some tokn) => ret (Continue (result ++ [Str.replace ":" "_" tokn]))
    | None =>
        if allOrNothing then
          if leaveUnmatchedTokens then ret (Return (Str.angle tok)) else ret (Return "")
        else if leaveUnmatchedTokens then ret (Continue (result ++ [Str.angle tok]))
        else ret (Continue (result ++ [""]))
    end
  else ret (Continue (result ++ [tok])).

Fixpoint substitute_loop (tokens : nat) (allOrNothing leaveUnmatchedTokens : bool)
    (i : nat) (parts : list string) (result : list string) : M string :=
  match parts with
  | [] => ret (Str.join result)
  | tok :: parts' =>
      let* r := substitute_round tokens allOrNothing leaveUnmatchedTokens i tok result in
      match r with
      | Continue result' =>
          substitute_loop tokens allOrNothing leaveUnmatchedTokens (S i) parts' result'
      | Return value => ret value
      end
  end.

Definition _substitute (parts : list string) (tokens : nat)
    (allOrNothing leaveUnmatchedTokens : bool) : M string :=
  substitute_loop tokens allOrNothing leaveUnmatchedTokens 0 parts [].

Fixpoint expand_loop (tokens : nat) (leaveUnmatchedTokens : bool)
    (i : nat) (grps : list string) (result : list string) : M string :=
  match grps with
  | [] => ret (Str.join result)
  | grp :: grps' =>
      let parts := Re.split tok_reg grp in
      let* s := _substitute parts tokens (even i) leaveUnmatchedTokens in
      expand_loop tokens leaveUnmatchedTokens (S i) grps' (result ++ [s])
  end.

(** [tokens] is a reference to a dictionary of the caller, or a string. *)
Definition expandFileTokens (path : string) (tokens : nat + string)
    (leaveUnmatchedTokens : bool) : M string :=
  let* tokens :=
    match tokens with
    | inl r => ret r
    | inr s =>
        match Shlex.split s with
        | inl e => raise e
        | inr pairs =>
            match dict (Str.split "=" <$> pairs) ∅ with
            | inl e => raise e
            | inr d => alloc d
            end
        end
    end in
  expand_loop tokens leaveUnmatchedTokens 0 (Re.split grp_reg path) [].

(** What the argument [tokens] stands for in a heap. *)
Definition argument (h : gmap nat (gmap string (option string))) (tokens : nat + string)
    : option tokens_arg :=
  match tokens with
  | inl r => TokensDict <$> h !! r
  | inr s => Some (TokensStr s)
  end.

End Heap.

(** ** The helpers around the scene (lines 167-176, 259-275, 584-592)

    What the host application answers is an argument of the functions
    below: the project directory, the lists of render layers, the label of
    an option menu. *)

(** The exceptions these functions raise or let through. *)
Inductive raised :=
| IndexError
| Exception (msg : string).

(** [l.index(x)]; [None] when [x] is not in [l]. *)
Fixpoint index (x : string) (l : list string) : option nat :=
  match l with
  | [] => None
  | y :: l' => if decide (y = x) then Some 0 else S <$> index x l'
  end.

(** [proj_name] (lines 167-176), on the directory [proj_dir()] returns;
    [sep] is [os.path.sep]. *)
Definition proj_name (sep : ascii) (proj_dir : string) : raised + string :=
  let tokens := Str.split sep proj_dir in
  if bool_decide ("show" ∈ tokens) then
    match index "show" tokens with
    | Some index =>
        match tokens !! (index + 1) with
        | Some name => inr name
        | None => inl IndexError
        end
    | None => inl (Exception "ValueError")
    end
  else inr "alex_test".

(** [range(0, n, 2)] *)
Definition range2 (n : nat) : list nat := (λ k, 2 * k) <$> seq 0 (Nat.div2 (S n)).

(** The loop of [init_layers] (lines 588-590): [None] when an index is out
    of range. *)
Fixpoint init_layers_loop (all_layers : list string) (indices : list nat)
    (layers : list string) : option (list string) :=
  match indices with
  | [] => Some layers
  | i :: indices' =>
      match all_layers !! (i + 1) with
      | None => None
      | Some namespace =>
          if decide (namespace = ":") then
            match all_layers !! i with
            | None => None
            | Some layer => init_layers_loop all_layers indices' (layers ++ [layer])
            end
          else init_layers_loop all_layers indices' layers
      end
  end.

(** [init_layers] (lines 584-592): the value of [self.layers] at the end.
    [all_layers] is what [cmds.ls(type='renderLayer', showNamespace=True)]
    returns and [render_layers] what [cmds.ls(type='renderLayer')] returns,
    asked for only in the [except] branch. *)
Definition init_layers (all_layers render_layers : list string) : list string :=
  match init_layers_loop all_layers (range2 (length all_layers)) [] with
  | Some layers => layers
  | None => render_layers
  end.

(** [s.split()]: the runs of characters between white space. *)
Fixpoint words_from (word : string) (s : string) : list string :=
  match s with
  | "" => match word with "" => [] | _ => [word] end
  | String a s' =>
      if Ascii.is_space a
      then match word with "" => words_from "" s' | _ => word :: words_from "" s' end
      else words_from (word +:+ String a "") s'
  end.

Definition split_words (s : string) : list string := words_from "" s.

(** [s[:-1]] *)
Fixpoint but_last (s : string) : string :=
  match s with
  | "" => ""
  | String a s' => match s' with "" => "" | _ => String a (but_last s') end
  end.

(** [s[1:-1]] *)
Definition inner (s : string) : string :=
  match s with
  | "" => ""
  | String _ s' => but_last s'
  end.

(** [get_default_extension] (lines 259-275).  The two renderer names are
    constants of the [zync] module; [optionMenuGrp menu_grp] is what
    [cmds.optionMenuGrp(menu_grp, q=True, v=True)] answers, [None] when it
    raises [RuntimeError]. *)
Definition get_default_extension (SOFTWARE_RENDERER MENTAL_RAY_RENDERER : string)
    (optionMenuGrp : string → option string) (renderer : string) : raised + string :=
  let chosen :=
    if decide (renderer = SOFTWARE_RENDERER) then inr "imageMenuMayaSW"
    else if decide (renderer = MENTAL_RAY_RENDERER) then inr "imageMenuMentalRay"
    else inl (Exception ("Invalid Renderer: " +:+ renderer)) in
  match chosen with
  | inl e => inl e
  | inr menu_grp =>
      match optionMenuGrp menu_grp with
      | None => inl (Exception "Please open the Maya Render globals before submitting.")
      | Some val =>
          match last (split_words val) with
          | None => inl IndexError
          | Some word => inr (inner word)
          end
      end
  end.

(** [sep.join(parts)] *)
Fixpoint join_with (sep : string) (parts : list string) : string :=
  match parts with
  | [] => ""
  | [part] => part
  | part :: parts' => part +:+ sep +:+ join_with sep parts'
  end.

(** ** Submission (lines 314-351, 499-548, 672-737)

    [get_render_params], [create_local_paths] and [submit], over what the
    host application, the file system and the [zync] module answer.  The
    answers are the fields of [host]; the file system is a state of a type
    [FS] that the functions thread. *)

(** The exceptions of this part. *)
Inductive pyerror :=
| KeyError (key : string)
| UnboundLocalError (name : string)
| ValueError_int (literal : string)
| OSError (path : string)
| MayaZyncException (msg : string).

(** [scene_info], reduced to the two keys this code reads: the list
    [file_prefix], whose first item is a prefix and whose other items are
    dictionaries from layers to prefixes, and [layer_passes]. *)
Record info := Info {
  file_prefix : string * list (gmap string string);
  layer_passes : gmap string (list string)
}.

(** The values stored in [params]: integers, strings, lists of strings, the
    empty dictionary, and [scene_info] with its key [layer_passes] or
    without it. *)
Inductive value :=
| VInt (z : Z)
| VStr (s : string)
| VStrs (l : list string)
| VEmpty
| VInfo (i : info) (with_layer_passes : bool).

#[global] Instance info_eq_dec : EqDecision info.
Proof. solve_decision. Defined.

#[global] Instance value_eq_dec : EqDecision value.
Proof. solve_decision. Defined.

Record host (FS : Type) := Host {
  VRAY_RENDERER : string;
  MENTAL_RAY_RENDERER : string;
  SOFTWARE_RENDERER : string;
  MAYA_RENDERERS : list (string * string);
  MAYA_DEFAULT_RENDERER : string;
  INSTANCE_TYPES : list (string * string);
  DEFAULT_INSTANCE_TYPE : string;
  authenticate : string → string → bool;
  os_path_join : string → string → string;
  os_path_dirname : string → string;
  os_path_exists : string → FS → bool;
  os_makedirs : string → FS → bool * FS;
  text : string → string;
  checked : string → bool;
  chosen : string → string;
  selected : option (list string);
  scene_path : string;
  get_scene_info : string → pyerror + info;
  int : string → option Z
}.

Arguments VRAY_RENDERER {FS}.
Arguments MENTAL_RAY_RENDERER {FS}.
Arguments SOFTWARE_RENDERER {FS}.
Arguments MAYA_RENDERERS {FS}.
Arguments MAYA_DEFAULT_RENDERER {FS}.
Arguments INSTANCE_TYPES {FS}.
Arguments DEFAULT_INSTANCE_TYPE {FS}.
Arguments authenticate {FS}.
Arguments os_path_join {FS}.
Arguments os_path_dirname {FS}.
Arguments os_path_exists {FS}.
Arguments os_makedirs {FS}.
Arguments text {FS}.
Arguments checked {FS}.
Arguments chosen {FS}.
Arguments selected {FS}.
Arguments scene_path {FS}.
Arguments get_scene_info {FS}.
Arguments int {FS}.

(** [int(b)] for a Boolean. *)
Definition int_of_bool (b : bool) : Z := if b then 1%Z else 0%Z.

(** [s.lstrip()] and [s.strip()] *)
Fixpoint lstrip (s : string) : string :=
  match s with
  | "" => ""
  | String a s' => if Ascii.is_space a then lstrip s' else s
  end.

Definition strip (s : string) : string := String.rev (lstrip (String.rev (lstrip s))).

(** The arguments [create_local_paths] reads in [params]. *)
Record local_paths := Local_paths {
  out_path : string;
  scene_info : info;
  selected_layers : list string;
  renderer : string
}.

(** The call of [submit_job] that ends [submit]. *)
Record job := Job {
  job_scene_path : string;
  job_layers : option string;
  job_params : gmap string value
}.

Section Submission.
Context {FS : Type}.
Variable h : host FS.

(** [int(eval_ui(name, text=True))] and the rest of the function after it. *)
Definition with_int {A} (name : string) (k : Z → pyerror + A) : pyerror + A :=
  match int h (text h name) with
  | None => inl (ValueError_int (text h name))
  | Some z => k z
  end.

(** [get_render_params] (lines 499-548).  The fields of [host] stand for
    [eval_ui]: [text] for a text field, [checked] for a check box, [chosen]
    for an option menu.  A [for ... else] loop over a dictionary of [zync]
    assigns the first item that fits, in the order the dictionary is walked,
    or the default; the two branches of the last [if] assign the same two
    keys. *)
Definition get_render_params : pyerror + gmap string value :=
  let params : gmap string value := ∅ in
  let params := <["proj_name" := VStr (text h "project_name")]> params in
  let parent := strip (text h "parent_id") in
  let params := if decide (parent ≠ "") then <["parent_id" := VStr parent]> params else params in
  let params := <["upload_only" := VInt (int_of_bool (checked h "upload_only"))]> params in
  let params :=
    <["start_new_slots" := VInt (int_of_bool (negb (checked h "start_new_slots")))]> params in
  let params := <["skip_check" := VInt (int_of_bool (checked h "skip_check"))]> params in
  let params := <["notify_complete" := VInt (int_of_bool (checked h "notify_complete"))]> params in
  let params := <["project" := VStr (text h "project")]> params in
  let params := <["out_path" := VStr (text h "output_dir")]> params in
  let render := chosen h "renderer" in
  let renderer :=
    match list_find (λ kv, kv.2 = render) (MAYA_RENDERERS h) with
    | Some (_, (k, _)) => k
    | None => MAYA_DEFAULT_RENDERER h
    end in
  let params := <["renderer" := VStr renderer]> params in
  with_int "num_instances" (λ num_instances,
  let params := <["num_instances" := VInt num_instances]> params in
  let selected_type := chosen h "instance_type" in
  let instance_type :=
    match list_find (λ kv, String.prefix kv.1 selected_type = true) (INSTANCE_TYPES h) with
    | Some (_, (_, csp_label)) => csp_label
    | None => DEFAULT_INSTANCE_TYPE h
    end in
  let params := <["instance_type" := VStr instance_type]> params in
  let params := <["frange" := VStr (text h "frange")]> params in
  with_int "frame_step" (λ step,
  let params := <["step" := VInt step]> params in
  with_int "chunk_size" (λ chunk_size,
  let params := <["chunk_size" := VInt chunk_size]> params in
  let params := <["camera" := VStr (chosen h "camera")]> params in
  with_int "x_res" (λ xres,
  let params := <["xres" := VInt xres]> params in
  with_int "y_res" (λ yres,
  let params := <["yres" := VInt yres]> params in
  let vray :=
    bool_decide (params !! "upload_only" = Some (VInt 0)
                 ∧ params !! "renderer" = Some (VStr "vray")) in
  let params :=
    <["vray_nightly" := VInt (if vray then int_of_bool (checked h "vray_nightly") else 0)]>
      params in
  let params :=
    <["use_vrscene" := VInt (if vray then int_of_bool (checked h "use_vrscene") else 0)]>
      params in
  inr params))))).

(** Lines 322-329: the paths of the layers; the entries of a later
    dictionary of [file_prefix] replace those of an earlier one. *)
Definition layer_path (base_out_path : string) (k v : string) : string :=
  expand (os_path_dirname h (os_path_join h base_out_path v))
    (<["Layer" := Some k]> {["RenderLayer" := Some k]}) true.

Definition layer_paths_of (base_out_path : string)
    (file_prefix : string * list (gmap string string)) : gmap string string :=
  foldl (λ layer_paths path,
           map_imap (λ k v, Some (layer_path base_out_path k v)) path ∪ layer_paths)
    {[ "defaultRenderLayer" :=
         expand (os_path_dirname h (os_path_join h base_out_path file_prefix.1))
           (<["Layer" := Some "masterLayer"]> {["RenderLayer" := Some "masterLayer"]}) true ]}
    file_prefix.2.

(** [if not os.path.exists(path): os.makedirs(path)]; [os.makedirs] says
    whether it returned, and leaves a file system. *)
Definition ensure_dir (path : string) (fs : FS) : option pyerror * FS :=
  if os_path_exists h path fs then (None, fs)
  else match os_makedirs h path fs with
       | (true, fs') => (None, fs')
       | (false, fs') => (Some (OSError path), fs')
       end.

(** Lines 335-346: the passes of one layer. *)
Fixpoint passes_loop (layer_paths : gmap string string) (renderer layer : string)
    (passes : list string) (fs : FS) : option pyerror * FS :=
  match passes with
  | [] => (None, fs)
  | pass_name :: passes' =>
      match layer_paths !! layer with
      | None => (Some (KeyError layer), fs)
      | Some path =>
          let pass_path :=
            if decide (renderer = VRAY_RENDERER h) then os_path_join h path pass_name
            else if decide (renderer = MENTAL_RAY_RENDERER h ∨ renderer = SOFTWARE_RENDERER h)
                 then expand path {[ "RenderPass" := Some pass_name ]} false
                 else path in
          match ensure_dir pass_path fs with
          | (None, fs') => passes_loop layer_paths renderer layer passes' fs'
          | (Some e, fs') => (Some e, fs')
          end
      end
  end.

(** Lines 333-346: the selected layers. *)
Fixpoint layers_loop (layer_paths : gmap string string) (renderer : string)
    (passes_of : gmap string (list string)) (layers : list string) (fs : FS)
    : option pyerror * FS :=
  match layers with
  | [] => (None, fs)
  | layer :: layers' =>
      match passes_loop layer_paths renderer layer (default [] (passes_of !! layer)) fs with
      | (None, fs') => layers_loop layer_paths renderer passes_of layers' fs'
      | (Some e, fs') => (Some e, fs')
      end
  end.

(** [create_local_paths] (lines 314-351): the exception it raises, if any,
    and the file system it leaves.  After the loops the variable [layer]
    holds the last selected layer, or nothing when no layer is selected. *)
Definition create_local_paths (params : local_paths) (fs : FS) : option pyerror * FS :=
  let base_out_path := out_path params in
  let layer_paths := layer_paths_of base_out_path (file_prefix (scene_info params)) in
  let passes_of := layer_passes (scene_info params) in
  match layers_loop layer_paths (renderer params) passes_of (selected_layers params) fs with
  | (Some e, fs') => (Some e, fs')
  | (None, fs') =>
      match last (selected_layers params) with
      | None => (Some (UnboundLocalError "layer"), fs')
      | Some layer =>
          match default [] (passes_of !! layer) with
          | [] =>
              match layer_paths !! layer with
              | None => (Some (KeyError layer), fs')
              | Some path => ensure_dir path fs'
              end
          | _ :: _ => (None, fs')
          end
      end
  end.

(** [submit] (lines 672-737): the exception it raises or the job it hands to
    [submit_job], and the file system it leaves. *)
Definition submit (fs : FS) : (pyerror + job) * FS :=
  match get_render_params with
  | inl e => (inl e, fs)
  | inr params =>
  let upload_only := bool_decide (params !! "upload_only" = Some (VInt 1)) in
  let chosen_layers :=
    if upload_only then inr (None, params)
    else match selected h with
         | None | Some [] => inl (MayaZyncException "Please select layer(s) to render.")
         | Some layers =>
             inr (Some layers, <["selected_layers" := VStrs layers]> params)
         end in
  match chosen_layers with
  | inl e => (inl e, fs)
  | inr (layers, params) =>
  let username := text h "username" in
  let password := text h "password" in
  if decide (username = "" ∨ password = "")
  then (inl (MayaZyncException "Please enter a ZYNC username and password."), fs)
  else if negb (authenticate h username password)
  then (inl (MayaZyncException "ZYNC Username Authentication Failed"), fs)
  else
  let told :=
    match layers with
    | None => inr (VEmpty, None)
    | Some layers =>
        match params !! "renderer" with
        | Some (VStr renderer) =>
            match get_scene_info h renderer with
            | inl e => inl e
            | inr scene_info =>
                inr (VInfo scene_info true,
                     Some (Local_paths (text h "output_dir") scene_info layers renderer))
            end
        | _ => inl (KeyError "renderer")
        end
    end in
  match told with
  | inl e => (inl e, fs)
  | inr (scene_info, local) =>
  let params := <["scene_info" := scene_info]> params in
  let made :=
    if bool_decide (params !! "upload_only" = Some (VInt 0))
    then match local with
         | Some local => create_local_paths local fs
         | None => (None, fs)
         end
    else (None, fs) in
  match made with
  | (Some e, fs') => (inl e, fs')
  | (None, fs') =>
  match params !! "selected_layers" with
  | None => (inl (KeyError "selected_layers"), fs')
  | Some _ =>
  let params := delete "selected_layers" params in
  match params !! "scene_info" with
  | Some (VInfo scene_info true) =>
      let params := <["scene_info" := VInfo scene_info false]> params in
      (inr (Job (scene_path h) (join_with "," <$> layers) params), fs')
  | _ => (inl (KeyError "layer_passes"), fs')
  end end end end end end.

(** [init_renderer] (lines 566-576): the labels it adds to the menu
    [renderer], in order; the dictionary [zync.MAYA_RENDERERS] is the list
    of its items in the order it is walked. *)
Definition init_renderer : pyerror + list string :=
  match list_find (λ kv, kv.1 = MAYA_DEFAULT_RENDERER h) (MAYA_RENDERERS h) with
  | None => inl (KeyError (MAYA_DEFAULT_RENDERER h))
  | Some (_, (_, default_renderer_name)) =>
      inr (default_renderer_name
           :: filter (λ item, item ≠ default_renderer_name) (MAYA_RENDERERS h).*2)
  end.

End Submission.

(** ** The callbacks of the form (lines 443-483) *)

(** The [en] flag of the widgets of the form, by name;
    [cmds.<widget>(name, e=True, en=b)] sets the flag of [name]. *)
Definition enable (name : string) (b : bool) (ui : gmap string bool) : gmap string bool :=
  <[name := b]> ui.

(** [upload_only_toggle] (lines 443-475) *)
Definition upload_only_toggle (checked : bool) (ui : gmap string bool) : gmap string bool :=
  if checked then
    let ui := enable "num_instances" false ui in
    let ui := enable "instance_type" false ui in
    let ui := enable "start_new_slots" false ui in
    let ui := enable "skip_check" false ui in
    let ui := enable "output_dir" false ui in
    let ui := enable "renderer" false ui in
    let ui := enable "vray_nightly" false ui in
    let ui := enable "use_vrscene" false ui in
    let ui := enable "frange" false ui in
    let ui := enable "frame_step" false ui in
    let ui := enable "chunk_size" false ui in
    let ui := enable "camera" false ui in
    let ui := enable "layers" false ui in
    let ui := enable "x_res" false ui in
    enable "y_res" false ui
  else
    let ui := enable "num_instances" true ui in
    let ui := enable "instance_type" true ui in
    let ui := enable "start_new_slots" true ui in
    let ui := enable "skip_check" true ui in
    let ui := enable "output_dir" true ui in
    let ui := enable "renderer" true ui in
    let ui := enable "vray_nightly" true ui in
    let ui := enable "use_vrscene" true ui in
    let ui := enable "frange" true ui in
    let ui := enable "frame_step" true ui in
    let ui := enable "chunk_size" true ui in
    let ui := enable "camera" true ui in
    let ui := enable "layers" true ui in
    let ui := enable "x_res" true ui in
    enable "y_res" true ui.

(** [change_renderer] (lines 477-483) *)
Definition change_renderer (renderer : string) (ui : gmap string bool) : gmap string bool :=
  if decide (renderer = "vray" ∨ renderer = "V-Ray") then
    let ui := enable "vray_nightly" true ui in
    enable "use_vrscene" true ui
  else
    let ui := enable "vray_nightly" false ui in
    enable "use_vrscene" false ui.

(** * Vocabulary of the properties *)

(** The names at the placeholder positions of a split group. *)
Fixpoint placeholders (parts : list string) : list string :=
  match parts with
  | _ :: tok :: parts' => tok :: placeholders parts'
  | _ => []
  end.

(** The first placeholder, from the left, whose name is not a key. *)
Definition first_missing (tokens : gmap string (option string)) (parts : list string)
    : option string :=
  head (filter (λ tok, tokens !! tok = None) (placeholders parts)).

(** The text a placeholder leaves when the loop goes on after it. *)
Definition rendered (tokens : gmap string (option string)) (leaveUnmatchedTokens : bool)
    (tok : string) : string :=
  match tokens !! tok with
  | Some None => Str.angle tok
  | Some (Some tokn) => Str.replace ":" "_" tokn
  | None => if leaveUnmatchedTokens then Str.angle tok else ""
  end.

(** The items appended to [result] by a loop that runs to its end. *)
Fixpoint pieces (tokens : gmap string (option string)) (leaveUnmatchedTokens : bool)
    (parts : list string) : list string :=
  match parts with
  | [] => []
  | lit :: parts' =>
      lit :: match parts' with
             | [] => []
             | tok :: parts'' =>
                 rendered tokens leaveUnmatchedTokens tok
                 :: pieces tokens leaveUnmatchedTokens parts''
             end
  end.

Definition failure (leaveUnmatchedTokens : bool) (tok : string) : string :=
  if leaveUnmatchedTokens then Str.angle tok else "".

Fixpoint all_chars (p : ascii → bool) (s : string) : bool :=
  match s with
  | "" => true
  | String a s' => p a && all_chars p s'
  end.

(** The text of a match with capture [cap]. *)
Definition matched (r : regex) (cap : string) : string :=
  String (re_open r) (cap +:+ String (re_close r) "").

(** The expansion of one part of the split path: [allOrNothing] is set at
    the positions of the groups. *)
Definition contribution (tokens : gmap string (option string)) (flag : bool)
    (i : nat) (grp : string) : string :=
  _substitute (Re.split tok_reg grp) tokens (even i) flag.

(** The list [result] at the end of the loop of [expandFileTokens]. *)
Definition contributions (path : string) (tokens : gmap string (option string))
    (flag : bool) : list string :=
  imap (contribution tokens flag) (Re.split grp_reg path).

(** How the part at position [i] of [r.split(s)] is written in [s]: a
    capture stands between the delimiters of the pattern. *)
Definition written (r : regex) (i : nat) (part : string) : string :=
  if even i then matched r part else part.

Definition unsplit (r : regex) (parts : list string) : string :=
  Str.join (imap (written r) parts).

(** [weave lits s]: the strings [lits] stand in [s] one after the other,
    each in one piece, with any text before, between and after them. *)
Inductive weave : list string → string → Prop :=
| weave_nil s : weave [] s
| weave_cons filler lit lits s :
    weave lits s → weave (lit :: lits) (filler +:+ lit +:+ s).

(** The literal parts of a split span: the parts between the placeholders. *)
Fixpoint literals (parts : list string) : list string :=
  match parts with
  | [] => []
  | lit :: parts' =>
      lit :: match parts' with
             | [] => []
             | _ :: parts'' => literals parts''
             end
  end.

(** A group is dropped when one of its placeholders has a name that is no
    key of the mapping. *)
Definition dropped (tokens : gmap string (option string)) (i : nat) (grp : string) : bool :=
  even i && bool_decide (is_Some (first_missing tokens (Re.split tok_reg grp))).

(** The literal parts of the template outside the dropped groups, in the
    order of the template. *)
Definition kept_literals (path : string) (tokens : gmap string (option string))
    : list string :=
  concat (imap (λ i grp, if dropped tokens i grp then []
                         else literals (Re.split tok_reg grp))
            (Re.split grp_reg path)).

(** Moving a search result to the right of a prefix. *)
Definition shift (pre : string) (found : option (string * string * string))
    : option (string * string * string) :=
  match found with
  | Some (p, cap, rest) => Some (pre +:+ p, cap, rest)
  | None => None
  end.

Definition starts_with (a : ascii) (s : string) : bool :=
  match s with
  | String b _ => Ascii.eqb b a
  | "" => false
  end.

(** An opening character that is not directly followed by the closing one:
    it opens a match if the text goes on suitably. *)
Fixpoint dangling (r : regex) (s : string) : bool :=
  match s with
  | "" => false
  | String a s' =>
      (Ascii.eqb a (re_open r) && negb (starts_with (re_close r) s')) || dangling r s'
  end.

(** [separates r m]: [m] starts with a character that ends any run of the
    class without closing it, and holds no opening character that could
    start a match. *)
Definition separates (r : regex) (m : string) : bool :=
  negb (dangling r m)
  && match m with
     | String x _ => negb (re_class r x) && negb (Ascii.eqb x (re_close r))
     | "" => false
     end.

(** The expansion of a span outside the groups. *)
Definition outside (tokens : gmap string (option string)) (flag : bool) (span : string)
    : string :=
  _substitute (Re.split tok_reg span) tokens false flag.

(** The text after the last group of a path. *)
Definition last_span (path : string) : string :=
  default "" (last (Re.split grp_reg path)).

(** A bracket of the path is still open at its end: the text after the last
    group holds a [[] that is not directly followed by []]. *)
Definition bracket_open (path : string) : bool := dangling grp_reg (last_span path).


(** The names of all the placeholders of a template, part by part. *)
Definition template_names (path : string) : list string :=
  concat ((λ span, placeholders (Re.split tok_reg span)) <$> Re.split grp_reg path).

(** A character that [shlex] takes as it is. *)
Definition bare (a : ascii) : bool :=
  negb (Shlex.whitespace a) && negb (Shlex.quotes a) && negb (Shlex.escape a).

(** A character that [shlex] takes as it is, and that is not [=]. *)
Definition plain (a : ascii) : bool := bare a && negb (Ascii.eqb a "=").

(** The dictionary that holds the pairs of a list, a later pair replacing an
    earlier one with the same key. *)
Definition dict_of (pairs : list (string * string)) : gmap string (option string) :=
  foldl (λ d pair, <[pair.1 := Some pair.2]> d) ∅ pairs.

(** The list [name1, namespace1, name2, namespace2, ...] of a list of pairs. *)
Definition interleaved (pairs : list (string * string)) : list string :=
  concat ((λ pair, [pair.1; pair.2]) <$> pairs).

(** The text fields [get_render_params] reads as numbers, in the order it
    reads them. *)
Definition numeric_fields : list string :=
  ["num_instances"; "frame_step"; "chunk_size"; "x_res"; "y_res"].

(** A host for the examples: the file system is the set of the directories
    that exist, every text field holds its own name, which [int] reads as
    1, and every check box but [upload_only] is off. *)
Definition demo_host (upload_only : bool) : host (gset string) := {|
  VRAY_RENDERER := "vray";
  MENTAL_RAY_RENDERER := "mr";
  SOFTWARE_RENDERER := "sw";
  MAYA_RENDERERS := [("vray", "V-Ray"); ("mr", "Mental Ray"); ("sw", "Maya Software")];
  MAYA_DEFAULT_RENDERER := "vray";
  INSTANCE_TYPES := [("ZYNC20", "20 core")];
  DEFAULT_INSTANCE_TYPE := "ZYNC20";
  authenticate := λ _ _, true;
  os_path_join := λ a b, a +:+ "/" +:+ b;
  os_path_dirname := λ p, p;
  os_path_exists := λ p fs, bool_decide (p ∈ fs);
  os_makedirs := λ p fs, (true, {[ p ]} ∪ fs);
  text := λ name, name;
  checked := λ name, if decide (name = "upload_only") then upload_only else false;
  chosen := λ name, if decide (name = "renderer") then "Mental Ray" else name;
  selected := Some ["fg"; "bg"];
  scene_path := "/show/robots/scene.ma";
  get_scene_info := λ _,
    inr (Info ("<Layer>/img", [<[ "fg" := "<Layer>/fg" ]> {[ "bg" := "<Layer>/bg" ]}]) ∅);
  int := λ _, Some 1%Z
|}.

(** The widgets both branches of [upload_only_toggle] set. *)
Definition toggled : list string :=
  ["num_instances"; "instance_type"; "start_new_slots"; "skip_check"; "output_dir";
   "renderer"; "vray_nightly"; "use_vrscene"; "frange"; "frame_step"; "chunk_size";
   "camera"; "layers"; "x_res"; "y_res"].

(** * Properties *)

(** ** The examples of the documentation *)

Example doc_filled :
  expand "filename[_<RenderPass>].jpg" {[ "RenderPass" := Some "Diffuse" ]} false
  = "filename_Diffuse.jpg".
Proof. vm_compute. reflexivity. Qed.

Example doc_dropped : expand "filename[_<RenderPass>].jpg" ∅ false = "filename.jpg".
Proof. vm_compute. reflexivity. Qed.

Example doc_left : expand "filename[_<RenderPass>].jpg" ∅ true = "filename<RenderPass>.jpg".
Proof. vm_compute. reflexivity. Qed.

Example doc_colon :
  expand "<A>:<B>" (<[ "A" := Some "x:y" ]> {[ "B" := Some "z" ]}) false = "x_y:z".
Proof. vm_compute. reflexivity. Qed.

Example str_form :
  expandFileTokens "<Layer>/[<RenderPass>]" (TokensStr "Layer=beauty RenderPass='a b'") false
  = inr "beauty/a b".
Proof. vm_compute. reflexivity. Qed.

Example str_form_no_value : expandFileTokens "x" (TokensStr "Layer") false = inl ValueError.
Proof. vm_compute. reflexivity. Qed.

(** ** Strings and lists of strings *)

Lemma sapp_nil_l (s : string) : "" +:+ s = s.
Proof. reflexivity. Qed.

Lemma sapp_cons (a : ascii) (s t : string) : String a s +:+ t = String a (s +:+ t).
Proof. reflexivity. Qed.

Lemma sapp_nil_r (s : string) : s +:+ "" = s.
Proof. induction s as [|a s IH]; [reflexivity|]. rewrite sapp_cons. by f_equal. Qed.

Lemma sapp_assoc (s t u : string) : (s +:+ t) +:+ u = s +:+ t +:+ u.
Proof. induction s as [|a s IH]; [reflexivity|]. rewrite !sapp_cons. by f_equal. Qed.

Lemma slength_app (s t : string) : String.length (s +:+ t) = String.length s + String.length t.
Proof. induction s as [|a s IH]; [reflexivity|]. rewrite sapp_cons. simpl. by f_equal. Qed.

Lemma join_nil : Str.join [] = "".
Proof. reflexivity. Qed.

Lemma join_cons (s : string) (l : list string) : Str.join (s :: l) = s +:+ Str.join l.
Proof. reflexivity. Qed.

Lemma join_app (l k : list string) : Str.join (l ++ k) = Str.join l +:+ Str.join k.
Proof.
  induction l as [|s l IH]; [reflexivity|].
  rewrite <- app_comm_cons, !join_cons, IH. by rewrite sapp_assoc.
Qed.

Lemma join_singleton (s : string) : Str.join [s] = s.
Proof. rewrite join_cons, join_nil. apply sapp_nil_r. Qed.

Lemma length_angle (tok : string) : String.length (Str.angle tok) = String.length tok + 2.
Proof. unfold Str.angle. rewrite sapp_cons, sapp_nil_l. simpl. rewrite slength_app. simpl. lia. Qed.

(** Lists are walked two elements at a time: a literal and a placeholder. *)
Lemma list_pair_ind {A} (P : list A → Prop) :
  P [] → (∀ x, P [x]) → (∀ x y l, P l → P (x :: y :: l)) → ∀ l, P l.
Proof.
  intros Hnil Hone Hstep l.
  cut (P l ∧ ∀ x, P (x :: l)); [tauto|].
  induction l as [|y l [IH1 IH2]]; split; auto.
Qed.

(** ** Parity of positions *)

Lemma even_0 : even 0 = false.
Proof. reflexivity. Qed.

Lemma even_1 : even 1 = true.
Proof. reflexivity. Qed.

Lemma even_SS (i : nat) : even (S (S i)) = even i.
Proof.
  unfold even. replace (S (S i)) with (i + 1 * 2) by lia.
  by rewrite Nat.Div0.mod_add.
Qed.

Lemma even_S (i : nat) : even (S i) = negb (even i).
Proof.
  induction i as [|i IH]; [reflexivity|].
  rewrite even_SS, IH. by destruct (even i).
Qed.

Lemma even_add (i j : nat) : even i = false → even (i + j) = even j.
Proof.
  revert j. induction (lt_wf i) as [i _ IH]. intros j Hi.
  destruct i as [|[|i]]; [reflexivity|discriminate|].
  rewrite even_SS in Hi. simpl. rewrite even_SS. apply IH; [lia|done].
Qed.

(** ** What [_substitute] computes *)

Lemma first_missing_cons tokens lit tok parts :
  first_missing tokens (lit :: tok :: parts) =
  match tokens !! tok with
  | None => Some tok
  | Some _ => first_missing tokens parts
  end.
Proof.
  unfold first_missing. simpl. rewrite filter_cons.
  destruct (tokens !! tok) as [v|] eqn:E; case_decide; try done.
Qed.

Lemma first_missing_one tokens lit : first_missing tokens [lit] = None.
Proof. reflexivity. Qed.

Lemma first_missing_absent tokens parts tok :
  first_missing tokens parts = Some tok → tokens !! tok = None.
Proof.
  induction parts as [|lit|lit t parts IH] using list_pair_ind; try done.
  rewrite first_missing_cons. destruct (tokens !! t) eqn:E; [done|]. by intros [= <-].
Qed.

Lemma first_missing_spec tokens parts tok :
  first_missing tokens parts = Some tok
  ↔ ∃ before after,
      placeholders parts = before ++ tok :: after
      ∧ Forall (λ t, is_Some (tokens !! t)) before
      ∧ tokens !! tok = None.
Proof.
  unfold first_missing. generalize (placeholders parts) as l.
  induction l as [|t l IH]; simpl.
  - split; [done|]. intros (before & after & Heq & _). by destruct before.
  - rewrite filter_cons. destruct (tokens !! t) as [v|] eqn:E; case_decide; try done.
    + rewrite IH. split.
      * intros (before & after & -> & Hall & Htok).
        exists (t :: before), after. repeat split; [|done]. constructor; [by rewrite E|done].
      * intros (before & after & Heq & Hall & Htok). destruct before as [|t' before].
        { injection Heq as -> _. congruence. }
        injection Heq as -> ->. apply Forall_cons in Hall as [_ Hall]. eauto.
    + simpl. split.
      * intros [= <-]. exists [], l. by repeat split.
      * intros (before & after & Heq & Hall & Htok). destruct before as [|t' before].
        { by injection Heq as -> _. }
        injection Heq as -> _. apply Forall_cons in Hall as [[? Ht] _]. congruence.
Qed.

Lemma substitute_loop_spec tokens aon flag parts :
  ∀ i result, even i = false →
  substitute_loop tokens aon flag i parts result =
  match (if aon then first_missing tokens parts else None) with
  | Some tok => failure flag tok
  | None => Str.join (result ++ pieces tokens flag parts)
  end.
Proof.
  induction parts as [|lit|lit tok parts IH] using list_pair_ind; intros i result Hi.
  - simpl. rewrite app_nil_r. by destruct aon.
  - simpl. unfold substitute_round. rewrite Hi. simpl. by destruct aon.
  - cbn [substitute_loop]. unfold substitute_round at 1. rewrite Hi.
    unfold substitute_round. rewrite even_S, Hi. cbn [negb].
    rewrite first_missing_cons. cbn [pieces]. unfold rendered.
    destruct (tokens !! tok) as [[v|]|] eqn:E.
    + rewrite IH by (by rewrite even_SS). by rewrite <- !app_assoc.
    + rewrite IH by (by rewrite even_SS). by rewrite <- !app_assoc.
    + destruct aon, flag; try done;
        rewrite IH by (by rewrite even_SS); by rewrite <- !app_assoc.
Qed.

Lemma substitute_spec parts tokens aon flag :
  _substitute parts tokens aon flag =
  match (if aon then first_missing tokens parts else None) with
  | Some tok => failure flag tok
  | None => Str.join (pieces tokens flag parts)
  end.
Proof. unfold _substitute. by rewrite substitute_loop_spec. Qed.

Lemma substitute_independent parts tokens flag :
  _substitute parts tokens false flag = Str.join (pieces tokens flag parts).
Proof. by rewrite substitute_spec. Qed.

Lemma placeholders_app pre post :
  even (length pre) = false →
  placeholders (pre ++ post) = placeholders pre ++ placeholders post.
Proof.
  induction pre as [|lit|lit tok pre IH] using list_pair_ind; intros Hlen; try done.
  simpl in *. rewrite even_SS in Hlen. by rewrite IH.
Qed.

Lemma placeholders_snoc pre lit : even (length pre) = false →
  placeholders (pre ++ [lit]) = placeholders pre.
Proof. intros H. rewrite placeholders_app by done. simpl. by rewrite app_nil_r. Qed.

Lemma pieces_app tokens flag pre post :
  even (length pre) = false →
  pieces tokens flag (pre ++ post) = pieces tokens flag pre ++ pieces tokens flag post.
Proof.
  induction pre as [|lit|lit tok pre IH] using list_pair_ind; intros Hlen; try done.
  cbn [length] in Hlen. rewrite even_SS in Hlen.
  rewrite <- !app_comm_cons. cbn [pieces]. rewrite IH by done. done.
Qed.

(** A list of odd length ends with a literal. *)
Lemma odd_length_snoc {A} (l : list A) :
  even (length l) = true → ∃ l' x, l = l' ++ [x] ∧ even (length l') = false.
Proof.
  intros H. destruct l as [|x l] using rev_ind; [done|].
  exists l, x. split; [done|].
  rewrite length_app in H. simpl in H. rewrite Nat.add_1_r, even_S in H.
  by destruct (even (length l)).
Qed.

Lemma placeholders_at pre tok post :
  even (length pre) = true →
  placeholders (pre ++ tok :: post) = placeholders pre ++ tok :: placeholders post.
Proof.
  intros (pre' & lit & -> & Hlen)%odd_length_snoc.
  rewrite <- app_assoc. cbn [app]. rewrite placeholders_app by done.
  rewrite placeholders_snoc by done. done.
Qed.

Lemma pieces_at tokens flag pre tok post :
  even (length pre) = true →
  pieces tokens flag (pre ++ tok :: post) =
  pieces tokens flag pre ++ rendered tokens flag tok :: pieces tokens flag post.
Proof.
  intros (pre' & lit & -> & Hlen)%odd_length_snoc.
  rewrite <- app_assoc. cbn [app]. rewrite !pieces_app by done.
  cbn [pieces]. by rewrite <- app_assoc.
Qed.

Lemma first_missing_at tokens pre tok post :
  even (length pre) = true →
  first_missing tokens (pre ++ tok :: post) =
  match first_missing tokens pre with
  | Some t => Some t
  | None => match tokens !! tok with
            | None => Some tok
            | Some _ => first_missing tokens post
            end
  end.
Proof.
  intros Hlen. unfold first_missing. rewrite placeholders_at by done.
  rewrite filter_app, filter_cons.
  destruct (filter _ (placeholders pre)) as [|t l]; [|done]. simpl.
  destruct (tokens !! tok) eqn:E; case_decide; done.
Qed.

(** ** What the patterns match *)

Section Regex_facts.
Variable r : regex.

Lemma match_plus_sound s cap rest :
  Re.match_plus r s = Some (cap, rest) →
  s = cap +:+ String (re_close r) rest ∧ cap ≠ "" ∧ all_chars (re_class r) cap = true.
Proof.
  revert cap rest. induction s as [|a s IH]; intros cap rest; [done|].
  simpl. destruct (re_class r a) eqn:Ha; [|done].
  destruct (Re.match_plus r s) as [[cap' rest']|] eqn:E.
  - intros [= <- <-]. destruct (IH _ _ eq_refl) as (-> & _ & Hall).
    rewrite sapp_cons. simpl. by rewrite Ha, Hall.
  - destruct s as [|b s']; [done|].
    destruct (Ascii.eqb_spec b (re_close r)) as [->|]; [|done].
    intros [= <- <-]. simpl. by rewrite Ha.
Qed.

Lemma match_at_sound s cap rest :
  Re.match_at r s = Some (cap, rest) →
  s = matched r cap +:+ rest ∧ cap ≠ "" ∧ all_chars (re_class r) cap = true.
Proof.
  destruct s as [|a s]; [done|]. simpl.
  destruct (Ascii.eqb_spec a (re_open r)) as [->|]; [|done].
  intros (-> & ? & ?)%match_plus_sound. split; [|done].
  unfold matched. rewrite sapp_cons, sapp_assoc. by rewrite sapp_cons, sapp_nil_l.
Qed.

Lemma search_sound s pre cap rest :
  Re.search r s = Some (pre, cap, rest) →
  s = pre +:+ matched r cap +:+ rest ∧ cap ≠ "" ∧ all_chars (re_class r) cap = true.
Proof.
  revert pre. induction s as [|a s IH]; intros pre; [done|].
  cbn [Re.search]. destruct (Re.match_at r (String a s)) as [[cap' rest']|] eqn:E.
  - intros [= <- <- <-]. by apply match_at_sound in E.
  - destruct (Re.search r s) as [[[pre' cap'] rest']|]; [|done].
    intros [= <- <- <-]. destruct (IH _ eq_refl) as (-> & ? & ?). done.
Qed.

Lemma length_matched cap : String.length (matched r cap) = String.length cap + 2.
Proof. unfold matched. simpl. rewrite slength_app. simpl. lia. Qed.

Lemma search_shorter s pre cap rest :
  Re.search r s = Some (pre, cap, rest) →
  String.length pre + String.length cap + 2 + String.length rest = String.length s.
Proof.
  intros (-> & _ & _)%search_sound. rewrite !slength_app, length_matched. lia.
Qed.

Lemma split_rounds_enough n m s :
  String.length s ≤ n → String.length s ≤ m → Re.split_rounds r n s = Re.split_rounds r m s.
Proof.
  revert m s. induction n as [|n IH]; intros m s Hn Hm.
  - destruct s; [|simpl in Hn; lia]. by destruct m.
  - destruct m as [|m].
    + destruct s; [|simpl in Hm; lia]. done.
    + simpl. destruct (Re.search r s) as [[[pre cap] rest]|] eqn:E; [|done].
      apply search_shorter in E. f_equal. f_equal. apply IH; lia.
Qed.

Lemma split_unfold s :
  Re.split r s =
  match Re.search r s with
  | None => [s]
  | Some (pre, cap, rest) => pre :: cap :: Re.split r rest
  end.
Proof.
  unfold Re.split. destruct s as [|a s]; [done|].
  cbn [String.length Re.split_rounds].
  destruct (Re.search r (String a s)) as [[[pre cap] rest]|] eqn:E; [|done].
  apply search_shorter in E. simpl in E. f_equal. f_equal.
  apply split_rounds_enough; lia.
Qed.

Lemma split_none s : Re.search r s = None → Re.split r s = [s].
Proof. intros H. by rewrite split_unfold, H. Qed.

Lemma split_some s pre cap rest :
  Re.search r s = Some (pre, cap, rest) → Re.split r s = pre :: cap :: Re.split r rest.
Proof. intros H. by rewrite split_unfold, H. Qed.

(** Induction along the matches of a string. *)
Lemma split_ind (P : string → Prop) :
  (∀ s, Re.search r s = None → P s) →
  (∀ s pre cap rest, Re.search r s = Some (pre, cap, rest) → P rest → P s) →
  ∀ s, P s.
Proof.
  intros Hnone Hsome s.
  remember (String.length s) as n eqn:Hn. revert s Hn.
  induction (lt_wf n) as [n _ IH]. intros s ->.
  destruct (Re.search r s) as [[[pre cap] rest]|] eqn:E; [|by apply Hnone].
  eapply Hsome; [done|]. eapply IH; [|done]. apply search_shorter in E. lia.
Qed.

Lemma split_odd_length s : even (length (Re.split r s)) = true.
Proof.
  induction s as [s E|s pre cap rest E IH] using split_ind.
  - by rewrite split_none.
  - rewrite (split_some _ _ _ _ E). cbn [length]. by rewrite even_SS.
Qed.

End Regex_facts.

(** ** What [expandFileTokens] computes *)

Lemma expand_loop_spec tokens flag grps :
  ∀ i result,
  expand_loop tokens flag i grps result =
  Str.join (result ++ imap (λ j, contribution tokens flag (i + j)) grps).
Proof.
  induction grps as [|grp grps IH]; intros i result.
  - simpl. by rewrite app_nil_r.
  - cbn [expand_loop]. rewrite IH. cbn [imap]. rewrite <- app_assoc. cbn [app].
    unfold contribution at 2. rewrite Nat.add_0_r.
    do 3 f_equal. apply imap_ext. intros j grp' _. simpl. f_equal. lia.
  Qed.

Lemma expand_contributions path tokens flag :
  expand path tokens flag = Str.join (contributions path tokens flag).
Proof. unfold expand. by rewrite expand_loop_spec. Qed.

Lemma contribution_SS tokens flag i grp :
  contribution tokens flag (S (S i)) grp = contribution tokens flag i grp.
Proof. unfold contribution. by rewrite even_SS. Qed.

Lemma contributions_none path tokens flag :
  Re.search grp_reg path = None →
  contributions path tokens flag = [_substitute (Re.split tok_reg path) tokens false flag].
Proof. intros H. unfold contributions. by rewrite split_none. Qed.

Lemma contributions_some path pre grp rest tokens flag :
  Re.search grp_reg path = Some (pre, grp, rest) →
  contributions path tokens flag =
  _substitute (Re.split tok_reg pre) tokens false flag
  :: _substitute (Re.split tok_reg grp) tokens true flag
  :: contributions rest tokens flag.
Proof.
  intros H. unfold contributions. rewrite (split_some _ _ _ _ _ H). cbn [imap].
  do 2 f_equal. apply imap_ext. intros j grp' _. simpl. apply contribution_SS.
Qed.

Lemma expand_none path tokens flag :
  Re.search grp_reg path = None →
  expand path tokens flag = _substitute (Re.split tok_reg path) tokens false flag.
Proof.
  intros H. by rewrite expand_contributions, contributions_none, join_singleton.
Qed.

Lemma expand_some path pre grp rest tokens flag :
  Re.search grp_reg path = Some (pre, grp, rest) →
  expand path tokens flag =
  _substitute (Re.split tok_reg pre) tokens false flag
  +:+ _substitute (Re.split tok_reg grp) tokens true flag
  +:+ expand rest tokens flag.
Proof.
  intros H. rewrite !expand_contributions, (contributions_some _ _ _ _ _ _ H).
  by rewrite !join_cons.
Qed.

Lemma join_middle (l : list string) (i : nat) (s : string) :
  l !! i = Some s → Str.join l = Str.join (take i l) +:+ s +:+ Str.join (drop (S i) l).
Proof.
  intros H. rewrite <- (take_drop_middle _ _ _ H) at 1.
  by rewrite join_app, join_cons.
Qed.

(** ** Writing a split string back *)

Lemma unsplit_split (r : regex) (s : string) : unsplit r (Re.split r s) = s.
Proof.
  unfold unsplit. induction s as [s E|s pre cap rest E IH] using (split_ind r).
  - rewrite split_none by done. simpl. apply sapp_nil_r.
  - rewrite (split_some _ _ _ _ _ E). cbn [imap]. rewrite !join_cons.
    rewrite (imap_ext _ (written r)), IH.
    + apply search_sound in E as (-> & _). done.
    + intros j part _. simpl. unfold written. by rewrite even_SS.
Qed.

Lemma contributions_lookup path tokens flag i grp :
  Re.split grp_reg path !! i = Some grp →
  contributions path tokens flag !! i
  = Some (_substitute (Re.split tok_reg grp) tokens (even i) flag).
Proof. intros H. unfold contributions. by rewrite list_lookup_imap, H. Qed.

(** Every capture of a split is a non-empty run of the class. *)
Lemma split_capture (r : regex) (s : string) (i : nat) (cap : string) :
  Re.split r s !! i = Some cap → even i = true →
  cap ≠ "" ∧ all_chars (re_class r) cap = true.
Proof.
  revert i. induction s as [s E|s pre c rest E IH] using (split_ind r); intros i.
  - rewrite split_none by done. destruct i as [|[|i]]; done.
  - rewrite (split_some _ _ _ _ _ E). destruct i as [|[|i]]; [done| |].
    + intros [= <-] _. by apply search_sound in E as (_ & ? & ?).
    + simpl. rewrite even_SS. apply IH.
Qed.

(** The result around the contribution of one part, and the path around
    the part as it is written. *)
Lemma expand_at path tokens flag i s :
  contributions path tokens flag !! i = Some s →
  expand path tokens flag
  = Str.join (take i (contributions path tokens flag)) +:+ s
    +:+ Str.join (drop (S i) (contributions path tokens flag)).
Proof. intros H. rewrite expand_contributions at 1. by apply join_middle. Qed.

Lemma path_at path i span :
  Re.split grp_reg path !! i = Some span →
  path = Str.join (take i (imap (written grp_reg) (Re.split grp_reg path)))
         +:+ written grp_reg i span
         +:+ Str.join (drop (S i) (imap (written grp_reg) (Re.split grp_reg path))).
Proof.
  intros H. rewrite <- (unsplit_split grp_reg path) at 1. apply join_middle.
  by rewrite list_lookup_imap, H.
Qed.

Lemma unsplit_at (r : regex) pre tok post :
  even (length pre) = true →
  unsplit r (pre ++ tok :: post) = unsplit r pre +:+ matched r tok +:+ unsplit r post.
Proof.
  intros Hlen. unfold unsplit. rewrite imap_app, join_app. cbn [imap]. rewrite join_cons.
  rewrite Nat.add_0_r. unfold written at 2. rewrite Hlen.
  do 3 f_equal. apply imap_ext. intros j part _. cbn. unfold written.
  replace (length pre + S j) with (S (length pre) + j) by lia.
  rewrite even_add; [done|]. by rewrite even_S, Hlen.
Qed.

(** A span whose split has the placeholder [tok] after the parts [pre] is
    written with [<tok>] there. *)
Lemma span_at span pre tok post :
  Re.split tok_reg span = pre ++ tok :: post →
  even (length pre) = true →
  span = unsplit tok_reg pre +:+ Str.angle tok +:+ unsplit tok_reg post.
Proof.
  intros Hparts Hlen. rewrite <- (unsplit_split tok_reg span) at 1.
  rewrite Hparts. by apply unsplit_at.
Qed.

(** ** The claims about groups *)

(** C1. A bracket group with a placeholder whose name is no key of the
    mapping contributes nothing to the result when [leaveUnmatchedTokens] is
    false, and exactly the form [<T>] of its first such placeholder when it
    is true; the literal text and the resolved values of the group are
    discarded.  The group is the part at position [i] of the split path,
    [tok] is its first placeholder whose name is no key, and the result is
    the concatenation of the contributions of the parts. *)
Theorem group_with_missing_token (path : string) (tokens : gmap string (option string))
    (flag : bool) (i : nat) (grp : string) (before : list string) (tok : string)
    (after : list string) :
  Re.split grp_reg path !! i = Some grp →
  even i = true →
  placeholders (Re.split tok_reg grp) = before ++ tok :: after →
  Forall (λ t, is_Some (tokens !! t)) before →
  tokens !! tok = None →
  contributions path tokens flag !! i = Some (if flag then Str.angle tok else "")
  ∧ expand path tokens flag
    = Str.join (take i (contributions path tokens flag))
      +:+ (if flag then Str.angle tok else "")
      +:+ Str.join (drop (S i) (contributions path tokens flag)).
Proof.
  intros Hgrp Hi Hparts Hbefore Htok.
  assert (first_missing tokens (Re.split tok_reg grp) = Some tok) as Hmiss.
  { apply first_missing_spec. eauto. }
  assert (contributions path tokens flag !! i = Some (if flag then Str.angle tok else "")) as H.
  { rewrite (contributions_lookup _ _ _ _ _ Hgrp), Hi, substitute_spec, Hmiss. done. }
  split; [done|]. rewrite expand_contributions. by apply join_middle.
Qed.

Lemma group_with_missing_token_witness :
  contributions "a[<X><Y>]b" {[ "X" := Some "1" ]} true !! 1 = Some "<Y>"
  ∧ expand "a[<X><Y>]b" {[ "X" := Some "1" ]} true
    = Str.join (take 1 (contributions "a[<X><Y>]b" {[ "X" := Some "1" ]} true))
      +:+ "<Y>"
      +:+ Str.join (drop 2 (contributions "a[<X><Y>]b" {[ "X" := Some "1" ]} true)).
Proof.
  apply (group_with_missing_token "a[<X><Y>]b" {[ "X" := Some "1" ]} true 1
           "<X><Y>" ["X"] "Y" []).
  - vm_compute. reflexivity.
  - reflexivity.
  - vm_compute. reflexivity.
  - repeat constructor. vm_compute. eauto.
  - vm_compute. reflexivity.
Defined.

Example group_dropped : expand "a[<X><Y>]b" {[ "X" := Some "1" ]} false = "ab".
Proof. vm_compute. reflexivity. Qed.

Example group_first_missing :
  expand "a[x<X>y<Y>z<Z>]b" {[ "X" := Some "1" ]} true = "a<Y>b".
Proof. vm_compute. reflexivity. Qed.

(** C9. A bracket group whose content has no placeholder expands to its
    content: the path has the group written between brackets at position
    [i], and the result has the bare content there. *)
Theorem group_without_placeholder (path : string) (tokens : gmap string (option string))
    (flag : bool) (i : nat) (grp : string) :
  Re.split grp_reg path !! i = Some grp →
  even i = true →
  Re.search tok_reg grp = None →
  path = Str.join (take i (imap (written grp_reg) (Re.split grp_reg path)))
         +:+ ("[" +:+ grp +:+ "]")
         +:+ Str.join (drop (S i) (imap (written grp_reg) (Re.split grp_reg path)))
  ∧ expand path tokens flag
    = Str.join (take i (contributions path tokens flag))
      +:+ grp
      +:+ Str.join (drop (S i) (contributions path tokens flag)).
Proof.
  intros Hgrp Hi Hnone. split.
  - rewrite <- (unsplit_split grp_reg path) at 1. apply join_middle.
    rewrite list_lookup_imap, Hgrp. simpl. unfold written. by rewrite Hi.
  - rewrite expand_contributions. apply join_middle.
    rewrite (contributions_lookup _ _ _ _ _ Hgrp), Hi, split_none by done.
    rewrite substitute_spec, first_missing_one. cbn [pieces]. by rewrite join_singleton.
Qed.

Lemma group_without_placeholder_witness :
  "x[abc]y" = Str.join (take 1 (imap (written grp_reg) (Re.split grp_reg "x[abc]y")))
         +:+ ("[" +:+ "abc" +:+ "]")
         +:+ Str.join (drop 2 (imap (written grp_reg) (Re.split grp_reg "x[abc]y")))
  ∧ expand "x[abc]y" ∅ false
    = Str.join (take 1 (contributions "x[abc]y" ∅ false))
      +:+ "abc"
      +:+ Str.join (drop 2 (contributions "x[abc]y" ∅ false)).
Proof.
  apply (group_without_placeholder "x[abc]y" ∅ false 1 "abc"); vm_compute; reflexivity.
Defined.

Example group_plain : expand "x[abc]y" ∅ true = "xabcy".
Proof. vm_compute. reflexivity. Qed.

(** ** Strings that stand in a string *)

Lemma weave_prefix lits filler s : weave lits s → weave lits (filler +:+ s).
Proof.
  intros [s'|f lit lits' s' H]; [constructor|].
  rewrite <- sapp_assoc. by constructor.
Qed.

Lemma weave_app lits1 lits2 s1 s2 :
  weave lits1 s1 → weave lits2 s2 → weave (lits1 ++ lits2) (s1 +:+ s2).
Proof.
  intros H1 H2. induction H1 as [s1|f lit lits1 s1 H1 IH].
  - by apply weave_prefix.
  - rewrite <- app_comm_cons, !sapp_assoc. by constructor.
Qed.

Lemma weave_sublist lits s :
  weave lits s →
  String.list_ascii_of_string (Str.join lits) `sublist_of` String.list_ascii_of_string s.
Proof.
  assert (∀ a b, String.list_ascii_of_string (a +:+ b)
                 = String.list_ascii_of_string a ++ String.list_ascii_of_string b) as Happ.
  { intros a b. induction a as [|c a IH]; [done|]. rewrite sapp_cons. simpl. by f_equal. }
  induction 1 as [s|f lit lits s H IH].
  - apply sublist_nil_l.
  - rewrite join_cons, !Happ. apply sublist_inserts_l. by apply sublist_app.
Qed.

Lemma weave_pieces tokens flag parts :
  weave (literals parts) (Str.join (pieces tokens flag parts)).
Proof.
  induction parts as [|lit|lit tok parts IH] using list_pair_ind.
  - constructor.
  - cbn [literals pieces]. rewrite join_cons, join_nil.
    rewrite <- (sapp_nil_l (lit +:+ "")). repeat constructor.
  - cbn [literals pieces]. rewrite !join_cons.
    rewrite <- (sapp_nil_l (lit +:+ _)). constructor. by apply weave_prefix.
Qed.

Lemma weave_contribution tokens flag i grp :
  weave (if dropped tokens i grp then [] else literals (Re.split tok_reg grp))
        (contribution tokens flag i grp).
Proof.
  unfold dropped, contribution. rewrite substitute_spec.
  destruct (even i); simpl; [|apply weave_pieces].
  destruct (first_missing tokens (Re.split tok_reg grp)) as [tok|] eqn:E.
  - rewrite bool_decide_true by eauto. constructor.
  - rewrite bool_decide_false by (by intros [? ?]). apply weave_pieces.
Qed.

Lemma weave_imap {A} (f : nat → A → list string) (g : nat → A → string) (l : list A) :
  (∀ i x, weave (f i x) (g i x)) →
  weave (concat (imap f l)) (Str.join (imap g l)).
Proof.
  revert f g. induction l as [|x l IH]; intros f g H; [constructor|].
  cbn [imap concat]. rewrite join_cons. apply weave_app; [apply H|].
  apply IH. intros i y. apply H.
Qed.

Lemma weave_kept_literals path tokens flag :
  weave (kept_literals path tokens) (expand path tokens flag).
Proof.
  rewrite expand_contributions. unfold kept_literals, contributions.
  apply weave_imap. intros i grp. apply weave_contribution.
Qed.

Lemma weave_suffix lits s t : weave lits s → weave lits (s +:+ t).
Proof.
  induction 1 as [s|f lit lits s H IH]; [constructor|].
  rewrite !sapp_assoc. by constructor.
Qed.

Lemma written_SS (r : regex) (l : list string) :
  imap (written r ∘ S ∘ S) l = imap (written r) l.
Proof. apply imap_ext. intros j part _. cbn. unfold written. by rewrite even_SS. Qed.

Lemma unsplit_cons2 (r : regex) lit tok parts :
  unsplit r (lit :: tok :: parts) = lit +:+ matched r tok +:+ unsplit r parts.
Proof. unfold unsplit. cbn [imap]. by rewrite written_SS, !join_cons. Qed.

Lemma weave_unsplit (r : regex) parts : weave (literals parts) (unsplit r parts).
Proof.
  induction parts as [|lit|lit tok parts IH] using list_pair_ind.
  - constructor.
  - unfold unsplit. cbn [literals imap]. rewrite join_cons, join_nil.
    rewrite <- (sapp_nil_l (written r 0 lit +:+ "")). repeat constructor.
  - rewrite unsplit_cons2. cbn [literals].
    rewrite <- (sapp_nil_l (lit +:+ _)). constructor. by apply weave_prefix.
Qed.

Lemma weave_written i span :
  weave (literals (Re.split tok_reg span)) (written grp_reg i span).
Proof.
  pose proof (weave_unsplit tok_reg (Re.split tok_reg span)) as H.
  rewrite unsplit_split in H. unfold written. destruct (even i); [|done].
  unfold matched. rewrite <- sapp_cons. apply (weave_prefix _ (String _ "")).
  by apply weave_suffix.
Qed.

(** ** The claims about single placeholders *)

Lemma substitute_at tokens aon flag pre tok post :
  even (length pre) = true →
  (aon = true → first_missing tokens (pre ++ tok :: post) = None) →
  _substitute (pre ++ tok :: post) tokens aon flag
  = _substitute pre tokens aon flag +:+ rendered tokens flag tok
    +:+ _substitute post tokens aon flag.
Proof.
  intros Hlen Hok. rewrite !substitute_spec. destruct aon.
  - specialize (Hok eq_refl). rewrite Hok.
    rewrite first_missing_at in Hok by done.
    destruct (first_missing tokens pre); [done|].
    destruct (tokens !! tok); [|done]. rewrite Hok.
    by rewrite pieces_at, join_app, join_cons.
  - by rewrite pieces_at, join_app, join_cons.
Qed.

Lemma first_missing_others tokens pre tok post :
  even (length pre) = true → is_Some (tokens !! tok) →
  first_missing tokens pre = None → first_missing tokens post = None →
  first_missing tokens (pre ++ tok :: post) = None.
Proof.
  intros Hlen [v Hv] Hpre Hpost. by rewrite first_missing_at, Hpre, Hv.
Qed.

Lemma replace_no_old (old new : ascii) (s : string) :
  old ≠ new → Str.mem old (Str.replace old new s) = false.
Proof.
  intros Hne. induction s as [|a s IH]; [done|]. simpl. rewrite IH, orb_false_r.
  destruct (Ascii.eqb_spec a old) as [->|Ha]; by apply Ascii.eqb_neq.
Qed.

Lemma replace_get (old new : ascii) (s : string) (n : nat) :
  String.get n (Str.replace old new s)
  = (λ a, if Ascii.eqb a old then new else a) <$> String.get n s.
Proof.
  revert n. induction s as [|a s IH]; intros n; [done|].
  destruct n as [|n]; [done|]. simpl. apply IH.
Qed.

Lemma replace_length (old new : ascii) (s : string) :
  String.length (Str.replace old new s) = String.length s.
Proof. induction s as [|a s IH]; [done|]. simpl. by rewrite IH. Qed.

(** C5. A placeholder whose name is a key mapped to [None] is written back
    as [<token>], outside groups and inside them and for either flag: the
    round of the loop that meets it never returns, the name is never the
    one that fails a group, and when no other placeholder fails the group
    the part of the path it stands in expands around its form [<token>].
    The path has [<tok>] in its part at position [i], and the result of
    [expand] has [<tok>] in the contribution of that part. *)
Theorem absent_marker_kept (path : string) (tokens : gmap string (option string))
    (flag : bool) (i : nat) (span : string) (pre : list string) (tok : string)
    (post : list string) :
  Re.split grp_reg path !! i = Some span →
  Re.split tok_reg span = pre ++ tok :: post →
  even (length pre) = true →
  tokens !! tok = Some None →
  (∀ aon j result, even j = true →
     substitute_round tokens aon flag j tok result = Continue (result ++ [Str.angle tok]))
  ∧ first_missing tokens (Re.split tok_reg span) ≠ Some tok
  ∧ path = Str.join (take i (imap (written grp_reg) (Re.split grp_reg path)))
           +:+ written grp_reg i
                 (unsplit tok_reg pre +:+ Str.angle tok +:+ unsplit tok_reg post)
           +:+ Str.join (drop (S i) (imap (written grp_reg) (Re.split grp_reg path)))
  ∧ ((even i = true → first_missing tokens pre = None ∧ first_missing tokens post = None) →
     contributions path tokens flag !! i
     = Some (_substitute pre tokens (even i) flag +:+ Str.angle tok
             +:+ _substitute post tokens (even i) flag)
     ∧ expand path tokens flag
       = Str.join (take i (contributions path tokens flag))
         +:+ (_substitute pre tokens (even i) flag +:+ Str.angle tok
              +:+ _substitute post tokens (even i) flag)
         +:+ Str.join (drop (S i) (contributions path tokens flag))).
Proof.
  intros Hspan Hparts Hlen Htok. split; [|split; [|split]].
  - intros aon j result Hj. unfold substitute_round. by rewrite Hj, Htok.
  - intros H%first_missing_absent. congruence.
  - rewrite <- (span_at _ _ _ _ Hparts Hlen). by apply path_at.
  - intros Hothers.
    assert (contributions path tokens flag !! i
            = Some (_substitute pre tokens (even i) flag +:+ Str.angle tok
                    +:+ _substitute post tokens (even i) flag)) as H.
    { rewrite (contributions_lookup _ _ _ _ _ Hspan), Hparts.
      rewrite substitute_at; [|done|].
      + unfold rendered. by rewrite Htok.
      + intros [Hpre Hpost]%Hothers. apply first_missing_others; by rewrite ?Htok. }
    split; [done|]. by apply expand_at.
Qed.

Lemma absent_marker_kept_witness :
  "a[_<P>:x]"
  = Str.join (take 1 (imap (written grp_reg) (Re.split grp_reg "a[_<P>:x]")))
    +:+ written grp_reg 1 (unsplit tok_reg ["_"] +:+ "<P>" +:+ unsplit tok_reg [":x"])
    +:+ Str.join (drop 2 (imap (written grp_reg) (Re.split grp_reg "a[_<P>:x]")))
  ∧ expand "a[_<P>:x]" {[ "P" := None ]} false
    = Str.join (take 1 (contributions "a[_<P>:x]" {[ "P" := None ]} false))
      +:+ (_substitute ["_"] {[ "P" := None ]} true false +:+ "<P>"
           +:+ _substitute [":x"] {[ "P" := None ]} true false)
      +:+ Str.join (drop 2 (contributions "a[_<P>:x]" {[ "P" := None ]} false)).
Proof.
  destruct (absent_marker_kept "a[_<P>:x]" {[ "P" := None ]} false 1
              "_<P>:x" ["_"] "P" [":x"]) as (_ & _ & Hpath & Hresult);
    [vm_compute; reflexivity..|].
  split; [exact Hpath|]. apply Hresult. intros _. vm_compute. by auto.
Defined.

Example absent_marker_outside : expand "a<P>b" {[ "P" := None ]} false = "a<P>b".
Proof. vm_compute. reflexivity. Qed.

Example absent_marker_inside : expand "a[_<P>:x]" {[ "P" := None ]} false = "a_<P>:x".
Proof. vm_compute. reflexivity. Qed.

(** C7. A placeholder outside the groups whose name is no key of the mapping
    leaves the empty string when [leaveUnmatchedTokens] is false and its
    form [<token>] when it is true, whatever the placeholders around it
    are: the parts before and after it expand on their own.  The path has
    [<tok>] in its part at position [i], outside the groups, and the result
    of [expand] has the text the placeholder leaves in the contribution of
    that part. *)
Theorem missing_token_outside (path : string) (tokens : gmap string (option string))
    (flag : bool) (i : nat) (span : string) (pre : list string) (tok : string)
    (post : list string) :
  Re.split grp_reg path !! i = Some span →
  even i = false →
  Re.split tok_reg span = pre ++ tok :: post →
  even (length pre) = true →
  tokens !! tok = None →
  path = Str.join (take i (imap (written grp_reg) (Re.split grp_reg path)))
         +:+ (unsplit tok_reg pre +:+ Str.angle tok +:+ unsplit tok_reg post)
         +:+ Str.join (drop (S i) (imap (written grp_reg) (Re.split grp_reg path)))
  ∧ contributions path tokens flag !! i
    = Some (_substitute pre tokens false flag
            +:+ (if flag then Str.angle tok else "")
            +:+ _substitute post tokens false flag)
  ∧ expand path tokens flag
    = Str.join (take i (contributions path tokens flag))
      +:+ (_substitute pre tokens false flag
           +:+ (if flag then Str.angle tok else "")
           +:+ _substitute post tokens false flag)
      +:+ Str.join (drop (S i) (contributions path tokens flag)).
Proof.
  intros Hspan Hi Hparts Hlen Htok.
  assert (contributions path tokens flag !! i
          = Some (_substitute pre tokens false flag
                  +:+ (if flag then Str.angle tok else "")
                  +:+ _substitute post tokens false flag)) as H.
  { rewrite (contributions_lookup _ _ _ _ _ Hspan), Hi, Hparts.
    rewrite substitute_at by done. unfold rendered. by rewrite Htok. }
  split; [|split; [done|by apply expand_at]].
  rewrite <- (span_at _ _ _ _ Hparts Hlen).
  rewrite (path_at _ _ _ Hspan) at 1. unfold written at 2. by rewrite Hi.
Qed.

Lemma missing_token_outside_witness :
  "a<X>b<Y>c[d]"
  = Str.join (take 0 (imap (written grp_reg) (Re.split grp_reg "a<X>b<Y>c[d]")))
    +:+ (unsplit tok_reg ["a"] +:+ "<X>" +:+ unsplit tok_reg ["b"; "Y"; "c"])
    +:+ Str.join (drop 1 (imap (written grp_reg) (Re.split grp_reg "a<X>b<Y>c[d]")))
  ∧ contributions "a<X>b<Y>c[d]" {[ "Y" := Some "1" ]} true !! 0
    = Some (_substitute ["a"] {[ "Y" := Some "1" ]} false true
            +:+ "<X>"
            +:+ _substitute ["b"; "Y"; "c"] {[ "Y" := Some "1" ]} false true)
  ∧ expand "a<X>b<Y>c[d]" {[ "Y" := Some "1" ]} true
    = Str.join (take 0 (contributions "a<X>b<Y>c[d]" {[ "Y" := Some "1" ]} true))
      +:+ (_substitute ["a"] {[ "Y" := Some "1" ]} false true
           +:+ "<X>"
           +:+ _substitute ["b"; "Y"; "c"] {[ "Y" := Some "1" ]} false true)
      +:+ Str.join (drop 1 (contributions "a<X>b<Y>c[d]" {[ "Y" := Some "1" ]} true)).
Proof.
  apply (missing_token_outside "a<X>b<Y>c[d]" {[ "Y" := Some "1" ]} true 0
           "a<X>b<Y>c" ["a"] "X" ["b"; "Y"; "c"]); vm_compute; reflexivity.
Defined.

Example missing_outside_dropped : expand "a<X>b<Y>c" {[ "Y" := Some "1" ]} false = "ab1c".
Proof. vm_compute. reflexivity. Qed.

Example missing_outside_left : expand "a<X>b<Y>c<Z>" {[ "Y" := Some "1" ]} true = "a<X>b1c<Z>".
Proof. vm_compute. reflexivity. Qed.

(** C6. A placeholder that resolves to a string is replaced by that string
    with every [:] turned into [_] and every other character kept; a
    literal part of the template is appended as it is written, and so is
    the name in the fallback form [<token>].  The path has [<tok>] in its
    part at position [i], the result of [expand] has the rewritten value in
    the contribution of that part, and the literal parts of the template
    outside the dropped groups stand in the result as they are written. *)
Theorem value_colons_rewritten (path : string) (tokens : gmap string (option string))
    (flag : bool) (i : nat) (span : string) (pre : list string) (tok : string)
    (post : list string) (tokn : string) :
  Re.split grp_reg path !! i = Some span →
  Re.split tok_reg span = pre ++ tok :: post →
  even (length pre) = true →
  tokens !! tok = Some (Some tokn) →
  (even i = true → first_missing tokens pre = None ∧ first_missing tokens post = None) →
  contributions path tokens flag !! i
  = Some (_substitute pre tokens (even i) flag +:+ Str.replace ":" "_" tokn
          +:+ _substitute post tokens (even i) flag)
  ∧ Str.mem ":" (Str.replace ":" "_" tokn) = false
  ∧ (∀ n, String.get n (Str.replace ":" "_" tokn)
          = (λ a, if Ascii.eqb a ":" then "_"%char else a) <$> String.get n tokn)
  ∧ (∀ aon j lit result, even j = false →
       substitute_round tokens aon flag j lit result = Continue (result ++ [lit]))
  ∧ (∀ aon j t result, even j = true → (∀ v, tokens !! t ≠ Some (Some v)) →
       substitute_round tokens aon flag j t result
       ∈ [Continue (result ++ [Str.angle t]); Continue (result ++ [""]);
          Return (Str.angle t); Return ""])
  ∧ path = Str.join (take i (imap (written grp_reg) (Re.split grp_reg path)))
           +:+ written grp_reg i
                 (unsplit tok_reg pre +:+ Str.angle tok +:+ unsplit tok_reg post)
           +:+ Str.join (drop (S i) (imap (written grp_reg) (Re.split grp_reg path)))
  ∧ expand path tokens flag
    = Str.join (take i (contributions path tokens flag))
      +:+ (_substitute pre tokens (even i) flag +:+ Str.replace ":" "_" tokn
           +:+ _substitute post tokens (even i) flag)
      +:+ Str.join (drop (S i) (contributions path tokens flag))
  ∧ weave (kept_literals path tokens) (expand path tokens flag).
Proof.
  intros Hspan Hparts Hlen Htok Hothers.
  assert (contributions path tokens flag !! i
          = Some (_substitute pre tokens (even i) flag +:+ Str.replace ":" "_" tokn
                  +:+ _substitute post tokens (even i) flag)) as H.
  { rewrite (contributions_lookup _ _ _ _ _ Hspan), Hparts.
    rewrite substitute_at; [|done|].
    + unfold rendered. by rewrite Htok.
    + intros [Hpre Hpost]%Hothers. apply first_missing_others; by rewrite ?Htok. }
  repeat apply conj.
  - done.
  - by apply replace_no_old.
  - intros n. apply replace_get.
  - intros aon j lit result Hj. unfold substitute_round. by rewrite Hj.
  - intros aon j t result Hj Ht. unfold substitute_round. rewrite Hj.
    destruct (tokens !! t) as [[v|]|]; [by destruct (Ht v)| |].
    + by constructor.
    + destruct aon, flag; by repeat constructor.
  - rewrite <- (span_at _ _ _ _ Hparts Hlen). by apply path_at.
  - by apply expand_at.
  - apply weave_kept_literals.
Qed.

Lemma value_colons_rewritten_witness :
  contributions "<A>:<B>" (<[ "A" := Some "x:y" ]> {[ "B" := Some "z" ]}) false !! 0
  = Some (_substitute [""] (<[ "A" := Some "x:y" ]> {[ "B" := Some "z" ]}) false false
          +:+ Str.replace ":" "_" "x:y"
          +:+ _substitute [":"; "B"; ""] (<[ "A" := Some "x:y" ]> {[ "B" := Some "z" ]})
                false false)
  ∧ expand "<A>:<B>" (<[ "A" := Some "x:y" ]> {[ "B" := Some "z" ]}) false
    = Str.join (take 0 (contributions "<A>:<B>"
                          (<[ "A" := Some "x:y" ]> {[ "B" := Some "z" ]}) false))
      +:+ (_substitute [""] (<[ "A" := Some "x:y" ]> {[ "B" := Some "z" ]}) false false
           +:+ Str.replace ":" "_" "x:y"
           +:+ _substitute [":"; "B"; ""] (<[ "A" := Some "x:y" ]> {[ "B" := Some "z" ]})
                 false false)
      +:+ Str.join (drop 1 (contributions "<A>:<B>"
                              (<[ "A" := Some "x:y" ]> {[ "B" := Some "z" ]}) false)).
Proof.
  destruct (value_colons_rewritten "<A>:<B>"
              (<[ "A" := Some "x:y" ]> {[ "B" := Some "z" ]}) false 0
              "<A>:<B>" [""] "A" [":"; "B"; ""] "x:y")
    as (Hpart & _ & _ & _ & _ & _ & Hresult & _); [vm_compute; by auto..|].
  split; [exact Hpart|exact Hresult].
Defined.

Example colons_in_group :
  expand "[a:<A>:<N>]" (<[ "A" := Some "::" ]> {[ "N" := None ]}) false = "a:__:<N>".
Proof. vm_compute. reflexivity. Qed.

(** ** Literal text *)

(** C3. The template is its parts written back: a group between [[] and
    []], a placeholder between [<] and [>], and the literal parts, the text
    outside the placeholders and the bracket delimiters, as they are; the
    literal parts stand in the template one after the other.  Those that do
    not lie in a dropped group stand in the result of [expand], each in one
    piece and in the order of the template; so their characters are a
    subsequence of the result.  This holds for every template, balanced or
    not. *)
Theorem literals_preserved (path : string) (tokens : gmap string (option string))
    (flag : bool) :
  path = Str.join (imap (λ i span, written grp_reg i (unsplit tok_reg (Re.split tok_reg span)))
                     (Re.split grp_reg path))
  ∧ weave (concat (imap (λ _ span, literals (Re.split tok_reg span))
                     (Re.split grp_reg path))) path
  ∧ weave (kept_literals path tokens) (expand path tokens flag)
  ∧ String.list_ascii_of_string (Str.join (kept_literals path tokens))
    `sublist_of` String.list_ascii_of_string (expand path tokens flag).
Proof.
  repeat apply conj.
  - rewrite <- (unsplit_split grp_reg path) at 1. unfold unsplit at 1. f_equal.
    apply imap_ext. intros i span _. cbn. by rewrite unsplit_split.
  - rewrite <- (unsplit_split grp_reg path) at 2. unfold unsplit.
    apply weave_imap. intros i span. apply weave_written.
  - apply weave_kept_literals.
  - apply weave_sublist, weave_kept_literals.
Qed.

Lemma literals_preserved_witness :
  weave ["file"; "_"; ":x"; "."; ""] "file[_<P>:x].<E>"
  ∧ weave ["file"; "."; ""] (expand "file[_<P>:x].<E>" ∅ false)
  ∧ weave ["file"; "_"; ":x"; "."; ""] (expand "file[_<P>:x].<E>" {[ "P" := Some "d" ]} true).
Proof.
  split; [|split].
  - exact (proj1 (proj2 (literals_preserved "file[_<P>:x].<E>" ∅ false))).
  - exact (proj1 (proj2 (proj2 (literals_preserved "file[_<P>:x].<E>" ∅ false)))).
  - exact (proj1 (proj2 (proj2
             (literals_preserved "file[_<P>:x].<E>" {[ "P" := Some "d" ]} true)))).
Defined.

Example kept_literals_filled :
  kept_literals "file[_<P>:x].<E>" {[ "P" := Some "d" ]} = ["file"; "_"; ":x"; "."; ""].
Proof. vm_compute. reflexivity. Qed.

Example kept_literals_dropped :
  kept_literals "file[_<P>:x].<E>" ∅ = ["file"; "."; ""].
Proof. vm_compute. reflexivity. Qed.

(** ** Matches and concatenation

    The closing character of both patterns lies outside the class, so the
    greedy run of a match stops at the first closing character. *)

Section Regex_concat.
Variable r : regex.
Hypothesis Hclose : re_class r (re_close r) = false.

Lemma match_plus_complete cap rest :
  cap ≠ "" → all_chars (re_class r) cap = true →
  Re.match_plus r (cap +:+ String (re_close r) rest) = Some (cap, rest).
Proof.
  induction cap as [|a cap IH]; [done|]. intros _ [Ha Hall]%andb_prop.
  rewrite sapp_cons. cbn [Re.match_plus]. rewrite Ha.
  destruct cap as [|b cap].
  - rewrite sapp_nil_l. cbn [Re.match_plus]. rewrite Hclose.
    by rewrite Ascii.eqb_refl.
  - by rewrite IH.
Qed.

Lemma match_plus_stable s cap rest t :
  Re.match_plus r s = Some (cap, rest) →
  Re.match_plus r (s +:+ t) = Some (cap, rest +:+ t).
Proof.
  intros (-> & Hne & Hall)%match_plus_sound.
  rewrite sapp_assoc, sapp_cons. by apply match_plus_complete.
Qed.

Lemma match_plus_none_stable s t :
  Re.match_plus r s = None → all_chars (re_class r) s = false →
  Re.match_plus r (s +:+ t) = None.
Proof.
  induction s as [|a s IH]; [done|]. rewrite sapp_cons. cbn [Re.match_plus all_chars].
  destruct (re_class r a); [|done]. cbn [andb].
  destruct (Re.match_plus r s) as [[cap rest]|]; [done|].
  intros Hnone Hall. rewrite IH by done.
  destruct s as [|b s]; [done|]. rewrite sapp_cons.
  by destruct (Ascii.eqb b (re_close r)).
Qed.

Lemma match_plus_none_barrier s x t :
  Re.match_plus r s = None → re_class r x = false → x ≠ re_close r →
  Re.match_plus r (s +:+ String x t) = None.
Proof.
  intros Hnone Hx Hxc. induction s as [|a s IH].
  - rewrite sapp_nil_l. cbn [Re.match_plus]. by rewrite Hx.
  - rewrite sapp_cons. revert Hnone. cbn [Re.match_plus].
    destruct (re_class r a); [|done].
    destruct (Re.match_plus r s) as [[cap rest]|]; [done|].
    intros Hnone. rewrite IH by done.
    destruct s as [|b s].
    + rewrite sapp_nil_l. by apply Ascii.eqb_neq in Hxc as ->.
    + rewrite sapp_cons. by destruct (Ascii.eqb b (re_close r)).
Qed.

Lemma all_chars_app p s t : all_chars p (s +:+ t) = all_chars p s && all_chars p t.
Proof.
  induction s as [|a s IH]; [done|]. rewrite sapp_cons. simpl.
  by rewrite IH, andb_assoc.
Qed.

Lemma all_chars_matched pre cap rest :
  all_chars (re_class r) (pre +:+ matched r cap +:+ rest) = false.
Proof.
  unfold matched. rewrite !all_chars_app. cbn [all_chars].
  rewrite all_chars_app. cbn [all_chars]. rewrite Hclose.
  by destruct (all_chars _ pre), (re_class r (re_open r)), (all_chars _ cap).
Qed.

Lemma search_stable s pre cap rest t :
  Re.search r s = Some (pre, cap, rest) →
  Re.search r (s +:+ t) = Some (pre, cap, rest +:+ t).
Proof.
  revert pre. induction s as [|a s IH]; intros pre; [done|].
  rewrite sapp_cons. cbn [Re.search].
  destruct (Re.match_at r (String a s)) as [[cap' rest']|] eqn:E.
  - intros [= <- <- <-]. revert E. cbn [Re.match_at].
    destruct (Ascii.eqb a (re_open r)); [|done].
    intros E. by rewrite (match_plus_stable _ _ _ _ E).
  - destruct (Re.search r s) as [[[pre' cap''] rest'']|] eqn:Es; [|done].
    intros [= <- <- <-]. rewrite (IH _ eq_refl).
    revert E. cbn [Re.match_at]. destruct (Ascii.eqb a (re_open r)); [|done].
    intros E. rewrite match_plus_none_stable; [done|done|].
    apply search_sound in Es as (-> & _). apply all_chars_matched.
Qed.

Lemma search_barrier s x t :
  Re.search r s = None → re_class r x = false → x ≠ re_close r →
  Re.search r (s +:+ String x t) = shift s (Re.search r (String x t)).
Proof.
  intros Hnone Hx Hxc. remember (Re.search r (String x t)) as found eqn:Hfound.
  induction s as [|a s IH].
  - rewrite sapp_nil_l, <- Hfound. by destruct found as [[[??]?]|].
  - revert Hnone. rewrite sapp_cons. cbn [Re.search].
    destruct (Re.match_at r (String a s)) as [[??]|] eqn:E; [done|].
    destruct (Re.search r s) as [[[??]?]|] eqn:Es; [done|]. intros _.
    rewrite IH by done.
    assert (Re.match_at r (String a (s +:+ String x t)) = None) as ->.
    { revert E. cbn [Re.match_at]. destruct (Ascii.eqb a (re_open r)); [|done].
      intros E. by apply match_plus_none_barrier. }
    by destruct found as [[[??]?]|].
Qed.

Lemma match_plus_close s : Re.match_plus r (String (re_close r) s) = None.
Proof. cbn [Re.match_plus]. by rewrite Hclose. Qed.

Lemma search_closed s t :
  dangling r s = false → Re.search r (s +:+ t) = shift s (Re.search r t).
Proof.
  induction s as [|a s IH].
  - intros _. rewrite sapp_nil_l. by destruct (Re.search r t) as [[[??]?]|].
  - cbn [dangling]. intros [Ha Hs]%orb_false_elim. rewrite sapp_cons.
    cbn [Re.search]. rewrite (IH Hs).
    assert (Re.match_at r (String a (s +:+ t)) = None) as ->.
    { cbn [Re.match_at]. destruct (Ascii.eqb a (re_open r)); [|done].
      destruct s as [|b s]; [done|]. simpl in Ha.
      apply negb_false_iff in Ha. apply Ascii.eqb_eq in Ha as ->.
      rewrite sapp_cons. apply match_plus_close. }
    by destruct (Re.search r t) as [[[??]?]|].
Qed.

Lemma search_closed_none s : dangling r s = false → Re.search r s = None.
Proof.
  intros H. rewrite <- (sapp_nil_r s). by rewrite (search_closed _ _ H).
Qed.

Lemma dangling_app s t :
  dangling r s = false → dangling r t = false → dangling r (s +:+ t) = false.
Proof.
  intros Hs Ht. induction s as [|a s IH]; [done|].
  revert Hs. rewrite sapp_cons. cbn [dangling]. intros [Ha Hs]%orb_false_elim.
  rewrite (IH Hs), orb_false_r.
  destruct (Ascii.eqb a (re_open r)); [|done].
  destruct s as [|b s]; [done|]. by rewrite sapp_cons.
Qed.

Lemma dangling_no_open s : Str.mem (re_open r) s = false → dangling r s = false.
Proof.
  induction s as [|a s IH]; [done|]. cbn [Str.mem dangling].
  intros [Ha Hs]%orb_false_elim. rewrite (IH Hs), orb_false_r.
  by rewrite Ascii.eqb_sym, Ha.
Qed.

Lemma match_plus_no_close s : Str.mem (re_close r) s = false → Re.match_plus r s = None.
Proof.
  induction s as [|a s IH]; [done|]. cbn [Str.mem Re.match_plus].
  intros [Ha Hs]%orb_false_elim. rewrite (IH Hs).
  destruct (re_class r a); [|done]. destruct s as [|b s]; [done|].
  simpl in Hs. apply orb_false_elim in Hs as [Hb _]. by rewrite Ascii.eqb_sym, Hb.
Qed.

Lemma search_no_close s : Str.mem (re_close r) s = false → Re.search r s = None.
Proof.
  induction s as [|a s IH]; [done|]. cbn [Str.mem].
  intros [Ha Hs]%orb_false_elim. cbn [Re.search]. rewrite (IH Hs).
  cbn [Re.match_at]. rewrite match_plus_no_close by done.
  by destruct (Ascii.eqb a (re_open r)).
Qed.

End Regex_concat.

Lemma grp_reg_close : re_class grp_reg (re_close grp_reg) = false.
Proof. reflexivity. Qed.

Lemma tok_reg_close : re_class tok_reg (re_close tok_reg) = false.
Proof. reflexivity. Qed.

(** ** Text that no match reaches across *)

Lemma shift_shift s t found : shift s (shift t found) = shift (s +:+ t) found.
Proof. destruct found as [[[p cap] rest]|]; [|done]. simpl. by rewrite sapp_assoc. Qed.

Lemma search_separator (r : regex) (a m b : string) :
  re_class r (re_close r) = false →
  separates r m = true → Re.search r a = None →
  Re.search r (a +:+ m +:+ b) = shift (a +:+ m) (Re.search r b).
Proof.
  intros Hclose [Hd Hm]%andb_prop Ha. apply negb_true_iff in Hd.
  destruct m as [|x m]; [done|]. apply andb_prop in Hm as [Hx Hxc].
  apply negb_true_iff in Hx. apply negb_true_iff, Ascii.eqb_neq in Hxc.
  rewrite sapp_cons, search_barrier by done.
  rewrite <- sapp_cons, search_closed by done. apply shift_shift.
Qed.

Lemma substitute_one tokens aon flag lit : _substitute [lit] tokens aon flag = lit.
Proof. rewrite substitute_spec, first_missing_one. cbn [pieces]. destruct aon; apply join_singleton. Qed.

Lemma substitute_cons2 tokens flag lit tok parts :
  _substitute (lit :: tok :: parts) tokens false flag
  = lit +:+ rendered tokens flag tok +:+ _substitute parts tokens false flag.
Proof. rewrite !substitute_independent. cbn [pieces]. by rewrite !join_cons. Qed.

Lemma outside_none tokens flag span :
  Re.search tok_reg span = None → outside tokens flag span = span.
Proof. intros H. unfold outside. by rewrite split_none, substitute_one. Qed.

Lemma outside_some tokens flag span pre tok rest :
  Re.search tok_reg span = Some (pre, tok, rest) →
  outside tokens flag span = pre +:+ rendered tokens flag tok +:+ outside tokens flag rest.
Proof.
  intros H. unfold outside. by rewrite (split_some _ _ _ _ _ H), substitute_cons2.
Qed.

Lemma outside_separator tokens flag m a b :
  separates tok_reg m = true →
  outside tokens flag (a +:+ m +:+ b)
  = outside tokens flag a +:+ m +:+ outside tokens flag b.
Proof.
  intros Hm. induction a as [a E|a pre tok rest E IH] using (split_ind tok_reg).
  - rewrite (outside_none _ _ a E).
    pose proof (search_separator tok_reg a m b tok_reg_close Hm E) as Hs.
    destruct (Re.search tok_reg b) as [[[p c] r']|] eqn:Eb.
    + rewrite (outside_some _ _ _ _ _ _ Hs), (outside_some _ _ _ _ _ _ Eb).
      by rewrite !sapp_assoc.
    + by rewrite (outside_none _ _ _ Hs), (outside_none _ _ _ Eb).
  - pose proof (search_stable tok_reg tok_reg_close _ _ _ _ (m +:+ b) E) as Hs.
    rewrite (outside_some _ _ _ _ _ _ Hs), (outside_some _ _ _ _ _ _ E), IH.
    by rewrite !sapp_assoc.
Qed.

Lemma last_span_none path : Re.search grp_reg path = None → last_span path = path.
Proof. intros H. unfold last_span. by rewrite split_none. Qed.

Lemma last_span_some path pre grp rest :
  Re.search grp_reg path = Some (pre, grp, rest) → last_span path = last_span rest.
Proof.
  intros H. unfold last_span. rewrite (split_some _ _ _ _ _ H).
  rewrite (split_unfold grp_reg rest).
  by destruct (Re.search grp_reg rest) as [[[??]?]|].
Qed.

Lemma expand_none' path tokens flag :
  Re.search grp_reg path = None → expand path tokens flag = outside tokens flag path.
Proof. apply expand_none. Qed.

Lemma expand_some' path pre grp rest tokens flag :
  Re.search grp_reg path = Some (pre, grp, rest) →
  expand path tokens flag =
  outside tokens flag pre
  +:+ _substitute (Re.split tok_reg grp) tokens true flag
  +:+ expand rest tokens flag.
Proof. apply expand_some. Qed.

(** Expansion goes through a text [m] that no placeholder reaches across
    and that, after a path with no open bracket, no group reaches across. *)
Lemma expand_through tokens flag m a b :
  separates tok_reg m = true →
  (∀ l, dangling grp_reg l = false →
        Re.search grp_reg (l +:+ m +:+ b) = shift (l +:+ m) (Re.search grp_reg b)) →
  bracket_open a = false →
  expand (a +:+ m +:+ b) tokens flag
  = expand a tokens flag +:+ m +:+ expand b tokens flag.
Proof.
  intros Hm Hthrough. unfold bracket_open.
  induction a as [a E|a pre grp rest E IH] using (split_ind grp_reg).
  - rewrite (last_span_none _ E). intros Ha. pose proof (Hthrough a Ha) as Hs.
    rewrite (expand_none' a) by done.
    destruct (Re.search grp_reg b) as [[[p g] r']|] eqn:Eb.
    + rewrite (expand_some' _ _ _ _ _ _ Hs), (expand_some' _ _ _ _ _ _ Eb).
      rewrite sapp_assoc, outside_separator by done. by rewrite !sapp_assoc.
    + rewrite (expand_none' _ _ _ Hs), (expand_none' _ _ _ Eb).
      by apply outside_separator.
  - rewrite (last_span_some _ _ _ _ E). intros Hrest.
    pose proof (search_stable grp_reg grp_reg_close _ _ _ _ (m +:+ b) E) as Hs.
    rewrite (expand_some' _ _ _ _ _ _ Hs), (expand_some' _ _ _ _ _ _ E), IH by done.
    by rewrite !sapp_assoc.
Qed.

Lemma expand_separator tokens flag m a b :
  separates tok_reg m = true → dangling grp_reg m = false →
  bracket_open a = false →
  expand (a +:+ m +:+ b) tokens flag
  = expand a tokens flag +:+ m +:+ expand b tokens flag.
Proof.
  intros Hm Hd. apply expand_through; [done|]. intros l Hl.
  rewrite <- sapp_assoc. apply (search_closed grp_reg grp_reg_close).
  by apply dangling_app.
Qed.


(** ** Empty delimiter pairs *)

Lemma match_at_empty (r : regex) (s : string) :
  re_class r (re_close r) = false →
  Re.match_at r (String (re_open r) (String (re_close r) s)) = None.
Proof.
  intros Hclose. cbn [Re.match_at]. rewrite Ascii.eqb_refl.
  by apply match_plus_close.
Qed.

(** A pair [<>] lies in one part of the split path. *)
Lemma app_cut (c : ascii) (x y u v : string) :
  c ≠ "<"%char → c ≠ ">"%char →
  x +:+ String c y = u +:+ "<>" +:+ v →
  (∃ x2, x = u +:+ "<>" +:+ x2 ∧ v = x2 +:+ String c y)
  ∨ (∃ u2, u = x +:+ String c u2 ∧ y = u2 +:+ "<>" +:+ v).
Proof.
  intros Hlt Hgt. revert u. induction x as [|d x IH]; intros u H.
  - rewrite sapp_nil_l in H. destruct u as [|e u].
    + injection H as -> _. done.
    + rewrite sapp_cons in H. injection H as <- ->. right. by exists u.
  - rewrite sapp_cons in H. destruct u as [|e u].
    + change ("" +:+ "<>" +:+ v) with (String "<" (String ">" v)) in H.
      injection H as -> H. destruct x as [|d' x].
      * injection H as -> _. done.
      * rewrite sapp_cons in H. injection H as -> <-. left. by exists x.
    + rewrite sapp_cons in H. injection H as <- H.
      destruct (IH _ H) as [(x2 & -> & ->)|(u2 & -> & ->)].
      * left. by exists x2.
      * right. by exists u2.
Qed.

Lemma matched_grp g rest :
  matched grp_reg g +:+ rest = String "[" (g +:+ String "]" rest).
Proof.
  unfold matched. cbn [re_open re_close grp_reg].
  by rewrite sapp_cons, sapp_assoc, sapp_cons, sapp_nil_l.
Qed.

Lemma angles_in_part (pre post : string) :
  ∃ i a b,
    Re.split grp_reg (pre +:+ "<>" +:+ post) !! i = Some (a +:+ "<>" +:+ b)
    ∧ pre = Str.join (take i (imap (written grp_reg)
                                 (Re.split grp_reg (pre +:+ "<>" +:+ post))))
            +:+ (if even i then "[" else "") +:+ a.
Proof.
  remember (pre +:+ "<>" +:+ post) as path eqn:Hpath. revert pre Hpath.
  induction path as [path E|path p g rest E IH] using (split_ind grp_reg);
    intros pre Hpath.
  - exists 0, pre, post. rewrite split_none by done. by rewrite Hpath.
  - pose proof (search_sound _ _ _ _ _ E) as (Hp & _ & _).
    rewrite matched_grp in Hp. rewrite Hpath in Hp. symmetry in Hp.
    rewrite (split_some _ _ _ _ _ E). cbn [imap]. rewrite written_SS.
    destruct (app_cut "[" p _ pre post ltac:(done) ltac:(done) Hp)
      as [(p2 & -> & _)|(q & -> & Hq)].
    + by exists 0, pre, p2.
    + symmetry in Hq.
      destruct (app_cut "]" g rest q post ltac:(done) ltac:(done) (eq_sym Hq))
        as [(g2 & -> & _)|(q2 & -> & Hrest)].
      * exists 1, q, g2. split; [done|]. cbn [take]. rewrite join_cons, join_nil.
        unfold written. cbn. by rewrite sapp_nil_r.
      * destruct (IH q2 Hrest) as (i & a & b & Hi & Hq2).
        exists (S (S i)), a, b. split; [exact Hi|].
        cbn [take]. rewrite !join_cons, even_SS.
        change (written grp_reg 0 p) with p.
        change ((written grp_reg ∘ S) 0 g) with (matched grp_reg g).
        rewrite Hq2 at 1. by rewrite !sapp_assoc, matched_grp.
Qed.

(** The placeholders of a span on the two sides of a text that no
    placeholder reaches across. *)
Lemma split_through tokens flag m a b :
  separates tok_reg m = true →
  first_missing tokens (Re.split tok_reg (a +:+ m +:+ b))
  = match first_missing tokens (Re.split tok_reg a) with
    | Some t => Some t
    | None => first_missing tokens (Re.split tok_reg b)
    end
  ∧ Str.join (pieces tokens flag (Re.split tok_reg (a +:+ m +:+ b)))
    = Str.join (pieces tokens flag (Re.split tok_reg a)) +:+ m
      +:+ Str.join (pieces tokens flag (Re.split tok_reg b)).
Proof.
  intros Hm. induction a as [a E|a pre tok rest E IH] using (split_ind tok_reg).
  - pose proof (search_separator tok_reg a m b tok_reg_close Hm E) as Hs.
    rewrite (split_none _ a E). rewrite first_missing_one. cbn [pieces].
    rewrite join_singleton.
    destruct (Re.search tok_reg b) as [[[p c] r']|] eqn:Eb; cbn [shift] in Hs.
    + rewrite (split_some _ _ _ _ _ Hs), (split_some _ _ _ _ _ Eb).
      rewrite !first_missing_cons. split; [done|]. cbn [pieces].
      rewrite !join_cons. by rewrite !sapp_assoc.
    + rewrite (split_none _ _ Hs), (split_none _ _ Eb). split; [done|]. cbn [pieces].
      by rewrite !join_singleton.
  - pose proof (search_stable tok_reg tok_reg_close _ _ _ _ (m +:+ b) E) as Hs.
    rewrite (split_some _ _ _ _ _ Hs), (split_some _ _ _ _ _ E).
    rewrite !first_missing_cons. destruct IH as [IH1 IH2]. split.
    + by destruct (tokens !! tok).
    + cbn [pieces]. rewrite !join_cons, IH2. by rewrite !sapp_assoc.
Qed.

Lemma contribution_through tokens flag i m a b :
  separates tok_reg m = true →
  dropped tokens i (a +:+ m +:+ b) = false →
  contribution tokens flag i (a +:+ m +:+ b)
  = contribution tokens flag i a +:+ m +:+ contribution tokens flag i b.
Proof.
  intros Hm Hd. unfold contribution. rewrite !substitute_spec.
  destruct (split_through tokens flag m a b Hm) as [Hfm Hp].
  unfold dropped in Hd. destruct (even i); [|exact Hp]. cbn [andb] in Hd.
  apply bool_decide_eq_false in Hd.
  destruct (first_missing tokens (Re.split tok_reg (a +:+ m +:+ b))) as [t|] eqn:E;
    [destruct Hd; eauto|].
  destruct (first_missing tokens (Re.split tok_reg a)); [done|].
  by rewrite <- Hfm.
Qed.

Lemma contribution_dropped path tokens flag i span :
  Re.split grp_reg path !! i = Some span →
  dropped tokens i span = true →
  ∃ tok, first_missing tokens (Re.split tok_reg span) = Some tok
         ∧ contributions path tokens flag !! i = Some (failure flag tok).
Proof.
  intros Hspan [Hi Hd]%andb_prop. apply bool_decide_eq_true in Hd as [tok Htok].
  exists tok. split; [done|].
  by rewrite (contributions_lookup _ _ _ _ _ Hspan), Hi, substitute_spec, Htok.
Qed.

(** A pair [[]] after an open bracket: its []] closes the group. *)
Lemma match_plus_open_run (s : string) :
  Re.match_plus grp_reg s = None → starts_with "]" s = false →
  all_chars (re_class grp_reg) s = true.
Proof.
  induction s as [|b s IH]; [done|]. cbn [Re.match_plus starts_with all_chars].
  cbn [re_class re_close grp_reg]. intros Hnone Hb. rewrite Hb in *. cbn [negb andb] in *.
  destruct (Re.match_plus grp_reg s) as [[??]|]; [done|]. apply IH; [done|].
  destruct s as [|c s]; [done|]. cbn [starts_with]. by destruct (Ascii.eqb c "]").
Qed.

Lemma search_open (s t : string) :
  Re.search grp_reg s = None → dangling grp_reg s = true →
  ∃ l1 l2, s = l1 +:+ String "[" l2
           ∧ Re.search grp_reg (s +:+ "[]" +:+ t) = Some (l1, l2 +:+ "[", t).
Proof.
  induction s as [|a s IH]; [done|]. cbn [Re.search dangling].
  destruct (Re.match_at grp_reg (String a s)) as [[??]|] eqn:Em; [done|].
  destruct (Re.search grp_reg s) as [[[??]?]|] eqn:Es; [done|]. intros _ Hd.
  destruct (Ascii.eqb a (re_open grp_reg) && negb (starts_with (re_close grp_reg) s))
    eqn:Ha.
  - apply andb_prop in Ha as [Ha Hs]. apply Ascii.eqb_eq in Ha as ->.
    apply negb_true_iff in Hs. exists "", s. split; [done|].
    cbn [Re.match_at] in Em. rewrite Ascii.eqb_refl in Em.
    pose proof (match_plus_open_run s Em Hs) as Hall.
    rewrite sapp_cons. cbn [Re.search Re.match_at]. rewrite Ascii.eqb_refl.
    change (s +:+ "[]" +:+ t) with (s +:+ "[" +:+ String (re_close grp_reg) t).
    rewrite <- sapp_assoc.
    rewrite (match_plus_complete grp_reg grp_reg_close); [done| |].
    + by destruct s.
    + by rewrite all_chars_app, Hall.
  - cbn [orb] in Hd. destruct (IH eq_refl Hd) as (l1 & l2 & -> & Hsearch).
    exists (String a l1), l2. split; [done|].
    rewrite sapp_cons. cbn [Re.search]. rewrite Hsearch.
    assert (Re.match_at grp_reg (String a ((l1 +:+ String "[" l2) +:+ "[]" +:+ t)) = None)
      as ->; [|done].
    cbn [Re.match_at]. destruct (Ascii.eqb a (re_open grp_reg)); [|done].
    cbn [andb] in Ha. apply negb_false_iff in Ha.
    destruct (l1 +:+ String "[" l2) as [|c l] eqn:El; [done|].
    cbn [starts_with] in Ha. apply Ascii.eqb_eq in Ha as ->.
    rewrite sapp_cons. apply (match_plus_close grp_reg grp_reg_close).
Qed.

Lemma brackets_after_open (pre post : string) :
  bracket_open pre = true →
  ∃ i grp,
    Re.split grp_reg (pre +:+ "[]" +:+ post) !! i = Some (grp +:+ "[")
    ∧ even i = true
    ∧ pre = Str.join (take i (imap (written grp_reg)
                                 (Re.split grp_reg (pre +:+ "[]" +:+ post))))
            +:+ "[" +:+ grp.
Proof.
  unfold bracket_open.
  induction pre as [pre E|pre p g rest E IH] using (split_ind grp_reg).
  - rewrite (last_span_none _ E). intros Hd.
    destruct (search_open pre post E Hd) as (l1 & l2 & Hpre & Hs).
    exists 1, l2. rewrite (split_some _ _ _ _ _ Hs). split; [done|]. split; [done|].
    cbn [imap take]. rewrite join_cons, join_nil. unfold written. cbn.
    by rewrite sapp_nil_r.
  - rewrite (last_span_some _ _ _ _ E). intros Hd.
    destruct (IH Hd) as (i & grp & Hi & Hev & Hrest).
    pose proof (search_stable grp_reg grp_reg_close _ _ _ _ ("[]" +:+ post) E) as Hs.
    pose proof (search_sound _ _ _ _ _ E) as (Hp & _ & _).
    exists (S (S i)), grp. rewrite (split_some _ _ _ _ _ Hs).
    split; [exact Hi|]. split; [by rewrite even_SS|].
    cbn [imap take]. rewrite written_SS, !join_cons.
    change (written grp_reg 0 p) with p.
    change ((written grp_reg ∘ S) 0 g) with (matched grp_reg g).
    rewrite Hp at 1. rewrite Hrest at 1. by rewrite !sapp_assoc.
Qed.

(** C10, amended. The pairs [[]] and [<>] are never matched as a group or a
    placeholder, and no group or placeholder has an empty content or name.
    Where no bracket is open before the pair, the pair stands in the result
    as it is written, between the expansions of the text before and after
    it.  A pair [<>] always lies in one part of the split path, with the text
    [a] of the part before it and the text [b] of the part after it; unless
    that part is a dropped group, the result has [<>] between the
    expansions of [a] and [b], and a dropped group leaves only what its
    first missing placeholder leaves.  After an open bracket the [[] of a
    pair [[]] is the last character of a group that the []] of the pair
    closes. *)
Theorem empty_pairs_literal (pre post : string) (tokens : gmap string (option string))
    (flag : bool) :
  Re.match_at grp_reg ("[]" +:+ post) = None
  ∧ Re.match_at tok_reg ("<>" +:+ post) = None
  ∧ (∀ path i grp, Re.split grp_reg path !! i = Some grp → even i = true → grp ≠ "")
  ∧ (∀ span j tok, Re.split tok_reg span !! j = Some tok → even j = true → tok ≠ "")
  ∧ (bracket_open pre = false →
     expand (pre +:+ "[]" +:+ post) tokens flag
     = expand pre tokens flag +:+ "[]" +:+ expand post tokens flag
     ∧ expand (pre +:+ "<>" +:+ post) tokens flag
       = expand pre tokens flag +:+ "<>" +:+ expand post tokens flag)
  ∧ (∃ i a b,
       Re.split grp_reg (pre +:+ "<>" +:+ post) !! i = Some (a +:+ "<>" +:+ b)
       ∧ pre = Str.join (take i (imap (written grp_reg)
                                    (Re.split grp_reg (pre +:+ "<>" +:+ post))))
               +:+ (if even i then "[" else "") +:+ a)
  ∧ (∀ i a b,
       Re.split grp_reg (pre +:+ "<>" +:+ post) !! i = Some (a +:+ "<>" +:+ b) →
       dropped tokens i (a +:+ "<>" +:+ b) = false →
       expand (pre +:+ "<>" +:+ post) tokens flag
       = Str.join (take i (contributions (pre +:+ "<>" +:+ post) tokens flag))
         +:+ (contribution tokens flag i a +:+ "<>" +:+ contribution tokens flag i b)
         +:+ Str.join (drop (S i) (contributions (pre +:+ "<>" +:+ post) tokens flag)))
  ∧ (∀ i a b,
       Re.split grp_reg (pre +:+ "<>" +:+ post) !! i = Some (a +:+ "<>" +:+ b) →
       dropped tokens i (a +:+ "<>" +:+ b) = true →
       ∃ tok, first_missing tokens (Re.split tok_reg (a +:+ "<>" +:+ b)) = Some tok
              ∧ expand (pre +:+ "<>" +:+ post) tokens flag
                = Str.join (take i (contributions (pre +:+ "<>" +:+ post) tokens flag))
                  +:+ (if flag then Str.angle tok else "")
                  +:+ Str.join (drop (S i)
                                  (contributions (pre +:+ "<>" +:+ post) tokens flag)))
  ∧ (bracket_open pre = true →
     ∃ i grp,
       Re.split grp_reg (pre +:+ "[]" +:+ post) !! i = Some (grp +:+ "[")
       ∧ even i = true
       ∧ pre = Str.join (take i (imap (written grp_reg)
                                    (Re.split grp_reg (pre +:+ "[]" +:+ post))))
               +:+ "[" +:+ grp).
Proof.
  repeat apply conj.
  - apply (match_at_empty grp_reg), grp_reg_close.
  - apply (match_at_empty tok_reg), tok_reg_close.
  - intros path i grp H Hi. by destruct (split_capture _ _ _ _ H Hi).
  - intros span j tok H Hj. by destruct (split_capture _ _ _ _ H Hj).
  - intros Hpre. split; by apply expand_separator.
  - apply angles_in_part.
  - intros i a b Hi Hd. apply expand_at.
    rewrite (contributions_lookup _ _ _ _ _ Hi).
    f_equal. by apply (contribution_through tokens flag i "<>" a b).
  - intros i a b Hi Hd.
    destruct (contribution_dropped _ tokens flag _ _ Hi Hd) as (tok & Htok & Hc).
    exists tok. split; [done|]. by apply expand_at.
  - apply brackets_after_open.
Qed.

Lemma empty_pairs_literal_witness :
  expand ("a[b]c" +:+ "[]" +:+ "<X>") ∅ false
  = expand "a[b]c" ∅ false +:+ "[]" +:+ expand "<X>" ∅ false
  ∧ expand ("[a" +:+ "<>" +:+ "b]") ∅ false
    = Str.join (take 1 (contributions ("[a" +:+ "<>" +:+ "b]") ∅ false))
      +:+ (contribution ∅ false 1 "a" +:+ "<>" +:+ contribution ∅ false 1 "b")
      +:+ Str.join (drop 2 (contributions ("[a" +:+ "<>" +:+ "b]") ∅ false))
  ∧ (∃ tok, first_missing ∅ (Re.split tok_reg ("" +:+ "<>" +:+ "<A>")) = Some tok
            ∧ expand ("[" +:+ "<>" +:+ "<A>]") ∅ false
              = Str.join (take 1 (contributions ("[" +:+ "<>" +:+ "<A>]") ∅ false))
                +:+ ""
                +:+ Str.join (drop 2 (contributions ("[" +:+ "<>" +:+ "<A>]") ∅ false)))
  ∧ (∃ i grp,
       Re.split grp_reg ("[a" +:+ "[]" +:+ "") !! i = Some (grp +:+ "[")
       ∧ even i = true
       ∧ "[a" = Str.join (take i (imap (written grp_reg)
                                     (Re.split grp_reg ("[a" +:+ "[]" +:+ ""))))
                +:+ "[" +:+ grp).
Proof.
  split; [|split; [|split]].
  - refine (proj1 (proj1 (proj2 (proj2 (proj2 (proj2
              (empty_pairs_literal "a[b]c" "<X>" ∅ false))))) _)).
    vm_compute. reflexivity.
  - destruct (empty_pairs_literal "[a" "b]" ∅ false) as (_ & _ & _ & _ & _ & _ & H & _).
    apply (H 1 "a" "b"); vm_compute; reflexivity.
  - destruct (empty_pairs_literal "[" "<A>]" ∅ false) as (_ & _ & _ & _ & _ & _ & _ & H & _).
    apply (H 1 "" "<A>"); vm_compute; reflexivity.
  - destruct (empty_pairs_literal "[a" "" ∅ false) as (_ & _ & _ & _ & _ & _ & _ & _ & H).
    apply H. vm_compute. reflexivity.
Defined.

(** The pair [<>] in a dropped group is dropped with it: the result has no
    [<>] at all.  The pair [[]] after an open bracket is not kept either:
    its []] closes the group and is removed with the [[] that opened it. *)
Lemma empty_pairs_not_verbatim :
  (¬ ∃ a b, expand "[<><A>]" ∅ false = a +:+ "<>" +:+ b)
  ∧ (¬ ∃ a b, expand "[a[]" ∅ false = a +:+ "[]" +:+ b).
Proof.
  split.
  - assert (expand "[<><A>]" ∅ false = "") as -> by (vm_compute; reflexivity).
    intros (a & b & H). destruct a; discriminate H.
  - assert (expand "[a[]" ∅ false = "a[") as -> by (vm_compute; reflexivity).
    intros (a & b & H). destruct a as [|? [|? [|? ?]]]; discriminate H.
Qed.

Example empty_brackets_alone : expand "[]" ∅ false = "[]".
Proof. vm_compute. reflexivity. Qed.

Example empty_angles_alone : expand "<>" ∅ false = "<>".
Proof. vm_compute. reflexivity. Qed.

Example empty_brackets_after_open : expand "[a[]" ∅ false = "a[".
Proof. vm_compute. reflexivity. Qed.

(** ** Expanding a result again *)

Lemma angle_matched tok : Str.angle tok = matched tok_reg tok.
Proof. reflexivity. Qed.

Lemma outside_empty_left span : outside ∅ true span = span.
Proof.
  induction span as [s E|s pre tok rest E IH] using (split_ind tok_reg).
  - by apply outside_none.
  - rewrite (outside_some _ _ _ _ _ _ E), IH. unfold rendered.
    rewrite lookup_empty, angle_matched. by apply search_sound in E as (<- & _).
Qed.

Lemma group_empty_left_length grp :
  String.length (_substitute (Re.split tok_reg grp) ∅ true true) ≤ String.length grp.
Proof.
  rewrite substitute_spec.
  destruct (Re.search tok_reg grp) as [[[pre tok] rest]|] eqn:E.
  - rewrite (split_some _ _ _ _ _ E), first_missing_cons, lookup_empty.
    cbn [failure]. rewrite length_angle. apply search_shorter in E. lia.
  - rewrite (split_none _ _ E), first_missing_one. cbn [pieces].
    by rewrite join_singleton.
Qed.

Lemma expand_empty_left_length s :
  String.length (expand s ∅ true) ≤ String.length s
  ∧ (is_Some (Re.search grp_reg s) → String.length (expand s ∅ true) < String.length s).
Proof.
  induction s as [s E|s pre grp rest E [IH _]] using (split_ind grp_reg).
  - rewrite (expand_none' _ _ _ E), outside_empty_left. split; [done|].
    rewrite E. by intros [? ?].
  - rewrite (expand_some' _ _ _ _ _ _ E), outside_empty_left, !slength_app.
    pose proof (group_empty_left_length grp). apply search_shorter in E. lia.
Qed.

Lemma search_no_open (r : regex) (s : string) :
  re_class r (re_close r) = false → Str.mem (re_open r) s = false → Re.search r s = None.
Proof. intros Hclose H. by apply search_closed_none, dangling_no_open. Qed.

(** C4, amended. Expanding the result again, with an empty mapping and
    [leaveUnmatchedTokens] set, gives the result back exactly when the
    result holds no bracket group; so it does when the result has no [[]
    or no []]. *)
Theorem reexpansion_fixed_point (path : string) (tokens : gmap string (option string))
    (flag : bool) :
  (expand (expand path tokens flag) ∅ true = expand path tokens flag
   ↔ Re.search grp_reg (expand path tokens flag) = None)
  ∧ (Str.mem "[" (expand path tokens flag) = false
     ∨ Str.mem "]" (expand path tokens flag) = false →
     expand (expand path tokens flag) ∅ true = expand path tokens flag).
Proof.
  assert (∀ s, Re.search grp_reg s = None → expand s ∅ true = s) as Hfix.
  { intros s E. by rewrite (expand_none' _ _ _ E), outside_empty_left. }
  split.
  - split; [|apply Hfix].
    intros Heq. destruct (Re.search grp_reg (expand path tokens flag)) eqn:E; [|done].
    destruct (expand_empty_left_length (expand path tokens flag)) as [_ Hlt].
    rewrite E, Heq in Hlt. specialize (Hlt (mk_is_Some _ _ eq_refl)). lia.
  - intros [H|H]; apply Hfix.
    + by apply (search_no_open grp_reg), H.
    + by apply (search_no_close grp_reg).
Qed.

Lemma reexpansion_fixed_point_witness :
  expand (expand "a[_<P>]b.<E>" {[ "P" := Some "d" ]} true) ∅ true
  = expand "a[_<P>]b.<E>" {[ "P" := Some "d" ]} true.
Proof.
  apply (proj2 (reexpansion_fixed_point "a[_<P>]b.<E>" {[ "P" := Some "d" ]} true)).
  left. vm_compute. reflexivity.
Defined.

(** A value with brackets leaves a group in the result, which the second
    expansion strips. *)
Lemma reexpansion_changes_result :
  expand (expand "<A>" {[ "A" := Some "[x]" ]} false) ∅ true
  ≠ expand "<A>" {[ "A" := Some "[x]" ]} false.
Proof. vm_compute. discriminate. Qed.

Example reexpansion_nested : expand "[[a]]" ∅ true = "[a]" ∧ expand "[a]" ∅ true = "a".
Proof. split; vm_compute; reflexivity. Qed.

(** ** Failure: the string form of the mapping *)



Lemma dict_raises (pairs : list (list string)) (d : gmap string (option string)) :
  (∃ d', dict pairs d = inr d') ∨ dict pairs d = inl ValueError.
Proof. destruct (dict pairs d) as [[]|d']; eauto. Qed.




Example string_form_open_quote :
  expandFileTokens "x" (TokensStr "Layer=it's") false = inl ValueError.
Proof. vm_compute. reflexivity. Qed.

Example shlex_words :
  Shlex.split "Layer=beauty  RenderPass='a b' c\ d" = inr ["Layer=beauty"; "RenderPass=a b"; "c d"].
Proof. vm_compute. reflexivity. Qed.

Example shlex_empty : Shlex.split "  " = inr [].
Proof. vm_compute. reflexivity. Qed.

Example unmatched_open : expand "a[b" ∅ false = "a[b".
Proof. vm_compute. reflexivity. Qed.

Example unmatched_close : expand "a]b[c]d" ∅ false = "a]bcd".
Proof. vm_compute. reflexivity. Qed.

(** ** Purity

    Over the heap the functions only read the dictionary behind the
    reference they are given. *)

Section Heap_facts.
Variable h : gmap nat (gmap string (option string)).
Variable r : nat.
Variable d : gmap string (option string).
Hypothesis Hr : h !! r = Some d.

Lemma heap_substitute_round aon flag i tok result :
  Heap.substitute_round r aon flag i tok result h
  = (inr (substitute_round d aon flag i tok result), h).
Proof.
  unfold Heap.substitute_round, substitute_round. destruct (even i); [|done].
  unfold Heap.bind, Heap.getitem. rewrite Hr. simpl.
  destruct (d !! tok) as [[v|]|]; try done. by destruct aon, flag.
Qed.

Lemma heap_substitute_loop aon flag parts :
  ∀ i result,
  Heap.substitute_loop r aon flag i parts result h
  = (inr (substitute_loop d aon flag i parts result), h).
Proof.
  induction parts as [|tok parts IH]; intros i result; [done|].
  cbn [Heap.substitute_loop substitute_loop]. unfold Heap.bind.
  rewrite heap_substitute_round.
  destruct (substitute_round d aon flag i tok result); [apply IH|done].
Qed.

Lemma heap_expand_loop flag grps :
  ∀ i result,
  Heap.expand_loop r flag i grps result h = (inr (expand_loop d flag i grps result), h).
Proof.
  induction grps as [|grp grps IH]; intros i result; [done|].
  cbn [Heap.expand_loop expand_loop]. unfold Heap.bind, Heap._substitute.
  rewrite heap_substitute_loop. apply IH.
Qed.

End Heap_facts.

Lemma heap_expand_dict h r d path flag :
  h !! r = Some d →
  Heap.expandFileTokens path (inl r) flag h = (inr (expand path d flag), h).
Proof.
  intros Hr. unfold Heap.expandFileTokens, Heap.bind, Heap.ret.
  by apply heap_expand_loop.
Qed.

(** Behind a reference that holds no dictionary every lookup fails, as in
    an empty dictionary. *)
Lemma heap_expand_loop_none h r flag grps :
  h !! r = None →
  ∀ i result,
  Heap.expand_loop r flag i grps result h = (inr (expand_loop ∅ flag i grps result), h).
Proof.
  intros Hr.
  assert (∀ aon parts i result,
    Heap.substitute_loop r aon flag i parts result h
    = (inr (substitute_loop ∅ aon flag i parts result), h)) as Hloop.
  { intros aon parts. induction parts as [|tok parts IH]; intros i result; [done|].
    cbn [Heap.substitute_loop substitute_loop]. unfold Heap.bind.
    unfold Heap.substitute_round, substitute_round.
    destruct (even i); [|apply IH].
    unfold Heap.bind, Heap.getitem. rewrite Hr, lookup_empty. simpl.
    destruct aon, flag; try done; apply IH. }
  induction grps as [|grp grps IH]; intros i result; [done|].
  cbn [Heap.expand_loop expand_loop]. unfold Heap.bind, Heap._substitute.
  rewrite Hloop. apply IH.
Qed.

Lemma heap_expand_str h s path flag :
  ∃ h', Heap.expandFileTokens path (inr s) flag h
        = (expandFileTokens path (TokensStr s) flag, h')
        ∧ ∀ r, is_Some (h !! r) → h' !! r = h !! r.
Proof.
  unfold Heap.expandFileTokens, expandFileTokens, Heap.bind, Heap.raise, Heap.alloc.
  destruct (Shlex.split s) as [e|pairs]; [by exists h|].
  destruct (dict (Str.split "=" <$> pairs) ∅) as [e|d]; [by exists h|].
  exists (<[fresh (dom h) := d]> h). split.
  - apply (heap_expand_loop _ _ d). apply lookup_insert_eq.
  - intros r Hr. apply lookup_insert_ne. intros <-.
    apply elem_of_dom in Hr. by apply is_fresh in Hr.
Qed.

(** C8. The result of [expandFileTokens] is a function of the template, of
    the mapping its argument stands for, and of the flag: calls in two
    heaps where the argument stands for the same mapping return the same
    result, which is the one the heap-free function gives, and every
    object of the caller's heap is left as it was. *)
Theorem expansion_is_pure (path : string) (tokens : nat + string) (flag : bool)
    (h1 h2 : gmap nat (gmap string (option string))) :
  Heap.argument h1 tokens = Heap.argument h2 tokens →
  (Heap.expandFileTokens path tokens flag h1).1
  = (Heap.expandFileTokens path tokens flag h2).1
  ∧ (∀ arg, Heap.argument h1 tokens = Some arg →
       (Heap.expandFileTokens path tokens flag h1).1 = expandFileTokens path arg flag)
  ∧ (∀ r, is_Some (h1 !! r) →
       (Heap.expandFileTokens path tokens flag h1).2 !! r = h1 !! r).
Proof.
  intros Harg. destruct tokens as [r|s].
  - simpl in Harg. destruct (h1 !! r) as [d|] eqn:E1.
    + destruct (h2 !! r) as [d2|] eqn:E2; [|done]. injection Harg as <-.
      rewrite (heap_expand_dict _ _ _ _ _ E1), (heap_expand_dict _ _ _ _ _ E2).
      repeat apply conj; [done| |done]. intros arg. simpl. rewrite E1. by intros [= <-].
    + destruct (h2 !! r) as [d2|] eqn:E2; [done|].
      unfold Heap.expandFileTokens, Heap.bind, Heap.ret.
      rewrite !heap_expand_loop_none by done.
      repeat apply conj; [done| |done]. intros arg. simpl. by rewrite E1.
  - destruct (heap_expand_str h1 s path flag) as (h1' & -> & Hh1).
    destruct (heap_expand_str h2 s path flag) as (h2' & -> & Hh2).
    repeat apply conj; [done| |done]. by intros arg [= <-].
Qed.

Lemma expansion_is_pure_witness :
  (Heap.expandFileTokens "a[_<P>]" (inl 0) false {[ 0 := {[ "P" := Some "d" ]} ]}).1
  = (Heap.expandFileTokens "a[_<P>]" (inl 0) false
       (<[ 1 := ∅ ]> {[ 0 := {[ "P" := Some "d" ]} ]})).1.
Proof.
  refine (proj1 (expansion_is_pure "a[_<P>]" (inl 0) false
            {[ 0 := {[ "P" := Some "d" ]} ]}
            (<[ 1 := ∅ ]> {[ 0 := {[ "P" := Some "d" ]} ]}) _)).
  vm_compute. reflexivity.
Defined.

(** * Further properties of the expansion *)

(** ** The two parity tests *)

(** X1. [even] holds exactly of the odd numbers and [odd] exactly of the
    even ones: the two names are exchanged. *)
Theorem even_odd_exchanged (num : nat) :
  even num = Nat.odd num ∧ odd num = Nat.even num.
Proof.
  assert (even num = Nat.odd num) as H.
  { induction (lt_wf num) as [n _ IH]. destruct n as [|[|n]]; [done..|].
    rewrite even_SS. rewrite IH by lia. done. }
  split; [done|]. unfold odd. fold (even num). rewrite H.
  by rewrite <- Nat.negb_even, negb_involutive.
Qed.

(** ** Only the names of the template matter *)

Lemma first_missing_agree (t1 t2 : gmap string (option string)) parts :
  (∀ tok, tok ∈ placeholders parts → t1 !! tok = t2 !! tok) →
  first_missing t1 parts = first_missing t2 parts.
Proof.
  induction parts as [|lit|lit tok parts IH] using list_pair_ind; intros H; try done.
  rewrite !first_missing_cons. rewrite <- (H tok) by (simpl; left).
  rewrite IH; [done|]. intros t Ht. apply H. simpl. by right.
Qed.

Lemma pieces_agree (t1 t2 : gmap string (option string)) flag parts :
  (∀ tok, tok ∈ placeholders parts → t1 !! tok = t2 !! tok) →
  pieces t1 flag parts = pieces t2 flag parts.
Proof.
  induction parts as [|lit|lit tok parts IH] using list_pair_ind; intros H; try done.
  cbn [pieces]. unfold rendered. rewrite <- (H tok) by (simpl; left).
  rewrite IH; [done|]. intros t Ht. apply H. simpl. by right.
Qed.

Lemma substitute_agree (t1 t2 : gmap string (option string)) aon flag parts :
  (∀ tok, tok ∈ placeholders parts → t1 !! tok = t2 !! tok) →
  _substitute parts t1 aon flag = _substitute parts t2 aon flag.
Proof.
  intros H. rewrite !substitute_spec.
  by rewrite (first_missing_agree t1 t2), (pieces_agree t1 t2).
Qed.

Lemma elem_of_concat {A} (x : A) (ls : list (list A)) :
  x ∈ concat ls ↔ ∃ l, x ∈ l ∧ l ∈ ls.
Proof.
  rewrite list_elem_of_In, in_concat. split.
  - intros (l & Hl & Hx). exists l. by rewrite !list_elem_of_In.
  - intros (l & Hx & Hl). exists l. by rewrite <- !list_elem_of_In.
Qed.

Lemma template_names_lookup path i span tok :
  Re.split grp_reg path !! i = Some span →
  tok ∈ placeholders (Re.split tok_reg span) → tok ∈ template_names path.
Proof.
  intros Hspan Htok. unfold template_names. apply elem_of_concat.
  exists (placeholders (Re.split tok_reg span)). split; [done|].
  apply list_elem_of_fmap. exists span. split; [done|].
  by apply list_elem_of_lookup_2 in Hspan.
Qed.

(** X2. The result depends on the mapping only through the entries for the
    names that stand as placeholders in the template: two mappings that
    agree on these names give the same result. *)
Theorem expand_only_reads_names (path : string) (t1 t2 : gmap string (option string))
    (flag : bool) :
  (∀ tok, tok ∈ template_names path → t1 !! tok = t2 !! tok) →
  expand path t1 flag = expand path t2 flag.
Proof.
  intros H. rewrite !expand_contributions. f_equal. unfold contributions.
  apply imap_ext. intros i span Hspan. unfold contribution.
  apply substitute_agree. intros tok Htok. apply H.
  by apply (template_names_lookup _ i span).
Qed.

Lemma expand_only_reads_names_witness :
  expand "a<X>[_<Y>]" {[ "X" := Some "1" ]} true
  = expand "a<X>[_<Y>]" (<[ "Z" := Some "9" ]> {[ "X" := Some "1" ]}) true.
Proof.
  apply (expand_only_reads_names "a<X>[_<Y>]" {[ "X" := Some "1" ]}
           (<[ "Z" := Some "9" ]> {[ "X" := Some "1" ]}) true).
  intros tok Htok. vm_compute in Htok.
  apply list_elem_of_In in Htok. simpl in Htok.
  destruct Htok as [<-|[<-|[]]]; vm_compute; reflexivity.
Defined.

Lemma placeholders_lookup parts tok :
  tok ∈ placeholders parts → ∃ j, parts !! j = Some tok ∧ even j = true.
Proof.
  induction parts as [|lit|lit t parts IH] using list_pair_ind; simpl.
  - by intros ?%elem_of_nil.
  - by intros ?%elem_of_nil.
  - intros [->|H]%elem_of_cons.
    + by exists 1.
    + destruct (IH H) as (j & Hj & Hev). exists (S (S j)). by rewrite even_SS.
Qed.

Lemma template_names_alpha path tok :
  tok ∈ template_names path → tok ≠ "" ∧ all_chars is_alpha tok = true.
Proof.
  unfold template_names. intros (names & Htok & Hnames)%elem_of_concat.
  apply list_elem_of_fmap in Hnames as (span & -> & _).
  apply placeholders_lookup in Htok as (j & Hj & Hev).
  apply (split_capture tok_reg _ _ _ Hj Hev).
Qed.

(** X3. An entry whose key is not a non-empty run of ASCII letters is never
    read: adding it to the mapping, or changing it, leaves every result as
    it is. *)
Theorem expand_ignores_other_keys (path : string) (tokens : gmap string (option string))
    (flag : bool) (key : string) (value : option string) :
  key = "" ∨ all_chars is_alpha key = false →
  expand path (<[key := value]> tokens) flag = expand path tokens flag.
Proof.
  intros Hkey. apply expand_only_reads_names. intros tok Htok.
  apply template_names_alpha in Htok as [Hne Halpha].
  apply lookup_insert_ne. intros <-. destruct Hkey; congruence.
Qed.

Lemma expand_ignores_other_keys_witness :
  expand "<a>/<b>" (<[ "a b" := Some "x" ]> {[ "a" := Some "1" ]}) false
  = expand "<a>/<b>" {[ "a" := Some "1" ]} false.
Proof.
  apply (expand_ignores_other_keys "<a>/<b>" {[ "a" := Some "1" ]} false "a b" (Some "x")).
  right. vm_compute. reflexivity.
Defined.

(** ** When every name is a key *)

Lemma first_missing_keys tokens parts :
  Forall (λ tok, is_Some (tokens !! tok)) (placeholders parts) →
  first_missing tokens parts = None.
Proof.
  induction parts as [|lit|lit tok parts IH] using list_pair_ind; try done.
  simpl. intros [[v Hv] Hall]%Forall_cons. rewrite first_missing_cons, Hv. auto.
Qed.

Lemma pieces_keys tokens flag flag' parts :
  Forall (λ tok, is_Some (tokens !! tok)) (placeholders parts) →
  pieces tokens flag parts = pieces tokens flag' parts.
Proof.
  induction parts as [|lit|lit tok parts IH] using list_pair_ind; try done.
  simpl. intros [[v Hv] Hall]%Forall_cons. unfold rendered. rewrite Hv.
  by rewrite (IH Hall).
Qed.

(** X4. When the name of every placeholder of the list is a key of the
    mapping, [_substitute] gives the same string whatever [allOrNothing] and
    [leaveUnmatchedTokens] are. *)
Theorem substitute_all_keys (parts : list string) (tokens : gmap string (option string))
    (aon flag aon' flag' : bool) :
  Forall (λ tok, is_Some (tokens !! tok)) (placeholders parts) →
  _substitute parts tokens aon flag = _substitute parts tokens aon' flag'.
Proof.
  intros H. rewrite !substitute_spec, (first_missing_keys _ _ H).
  rewrite (pieces_keys tokens flag flag' parts H). by destruct aon, aon'.
Qed.

Lemma substitute_all_keys_witness :
  _substitute ["a"; "X"; "b"; "N"; ""] (<[ "X" := Some "1" ]> {[ "N" := None ]}) true false
  = _substitute ["a"; "X"; "b"; "N"; ""] (<[ "X" := Some "1" ]> {[ "N" := None ]}) false true.
Proof.
  apply (substitute_all_keys ["a"; "X"; "b"; "N"; ""]
           (<[ "X" := Some "1" ]> {[ "N" := None ]}) true false false true).
  repeat constructor; vm_compute; eauto.
Defined.

(** X5. When the name of every placeholder of the template is a key of the
    mapping, [leaveUnmatchedTokens] has no effect on the result. *)
Theorem expand_flag_irrelevant (path : string) (tokens : gmap string (option string)) :
  Forall (λ tok, is_Some (tokens !! tok)) (template_names path) →
  expand path tokens true = expand path tokens false.
Proof.
  intros H. rewrite !expand_contributions. f_equal. unfold contributions.
  apply imap_ext. intros i span Hspan. unfold contribution.
  apply substitute_all_keys. apply Forall_forall. intros tok Htok.
  rewrite Forall_forall in H. apply H. by apply (template_names_lookup _ i span).
Qed.

Lemma expand_flag_irrelevant_witness :
  expand "a<X>[_<N>]" (<[ "X" := Some "1" ]> {[ "N" := None ]}) true
  = expand "a<X>[_<N>]" (<[ "X" := Some "1" ]> {[ "N" := None ]}) false.
Proof.
  apply (expand_flag_irrelevant "a<X>[_<N>]" (<[ "X" := Some "1" ]> {[ "N" := None ]})).
  vm_compute. repeat constructor; eauto.
Defined.

(** ** Templates without placeholders *)

(** X6. A template that has no placeholder and no group, for want of a [<]
    or a [>] and of a [[] or a []], is returned as it is; so is the empty
    template. *)
Theorem expand_plain (path : string) (tokens : gmap string (option string)) (flag : bool) :
  Str.mem "<" path = false ∨ Str.mem ">" path = false →
  Str.mem "[" path = false ∨ Str.mem "]" path = false →
  expand path tokens flag = path.
Proof.
  intros Htok Hgrp.
  assert (Re.search grp_reg path = None) as Eg.
  { destruct Hgrp; [by apply (search_no_open grp_reg)|by apply (search_no_close grp_reg)]. }
  assert (Re.search tok_reg path = None) as Et.
  { destruct Htok; [by apply (search_no_open tok_reg)|by apply (search_no_close tok_reg)]. }
  rewrite (expand_none' _ _ _ Eg). by apply outside_none.
Qed.

Lemma expand_plain_witness : expand "plain text" {[ "plain" := Some "x" ]} false = "plain text".
Proof.
  apply (expand_plain "plain text" {[ "plain" := Some "x" ]} false); left; reflexivity.
Defined.

Lemma app_close_inj (c : ascii) (a b x y : string) :
  Str.mem c a = false → Str.mem c b = false →
  a +:+ String c x = b +:+ String c y → a = b.
Proof.
  revert b. induction a as [|a0 a IH]; intros [|b0 b]; simpl.
  - done.
  - intros _ [Hb _]%orb_false_elim. rewrite sapp_nil_l, sapp_cons.
    intros [= -> _]. by rewrite Ascii.eqb_refl in Hb.
  - intros [Ha _]%orb_false_elim _. rewrite sapp_nil_l, sapp_cons.
    intros [= -> _]. by rewrite Ascii.eqb_refl in Ha.
  - intros [_ Ha]%orb_false_elim [_ Hb]%orb_false_elim. rewrite !sapp_cons.
    intros [= -> H]. f_equal. by apply IH.
Qed.

Lemma all_chars_no_close (r : regex) (cap : string) :
  re_class r (re_close r) = false → all_chars (re_class r) cap = true →
  Str.mem (re_close r) cap = false.
Proof.
  intros Hclose. induction cap as [|a cap IH]; [done|]. simpl.
  intros [Ha Hall]%andb_prop. rewrite (IH Hall), orb_false_r.
  apply Ascii.eqb_neq. intros <-. congruence.
Qed.

Lemma mem_app (c : ascii) (s t : string) :
  Str.mem c (s +:+ t) = Str.mem c s || Str.mem c t.
Proof.
  induction s as [|a s IH]; [done|]. rewrite sapp_cons. simpl.
  by rewrite IH, orb_assoc.
Qed.

(** X7. A name between [<] and [>] that is empty or has a character other
    than an ASCII letter is no placeholder: the text is returned as it is
    written, also when the name is a key of the mapping. *)
Theorem expand_name_not_alphabetic (name : string) (tokens : gmap string (option string))
    (flag : bool) :
  name = "" ∨ all_chars is_alpha name = false →
  Str.mem "<" name = false → Str.mem ">" name = false →
  Str.mem "[" name = false ∨ Str.mem "]" name = false →
  expand (Str.angle name) tokens flag = Str.angle name.
Proof.
  intros Hname Hlt Hgt Hbr.
  assert (Re.search grp_reg (Str.angle name) = None) as Eg.
  { change (Str.angle name) with (String "<" (name +:+ ">")). destruct Hbr as [H|H].
    - apply (search_no_open grp_reg); [done|]. simpl. by rewrite mem_app, H.
    - apply (search_no_close grp_reg). simpl. by rewrite mem_app, H. }
  assert (Re.search tok_reg (Str.angle name) = None) as Et.
  { change (Str.angle name) with (String "<" (name +:+ ">")).
    cbn [Re.search].
    assert (Re.match_at tok_reg (String "<" (name +:+ ">")) = None) as ->.
    { cbn [Re.match_at]. simpl (Ascii.eqb _ _).
      destruct (Re.match_plus tok_reg (name +:+ ">")) as [[cap rest]|] eqn:E; [|done].
      apply match_plus_sound in E as (Heq & Hne & Hall). exfalso.
      assert (name = cap) as ->.
      { eapply (app_close_inj ">"); [done| |exact Heq].
        by apply (all_chars_no_close tok_reg). }
      change (re_class tok_reg) with is_alpha in Hall. destruct Hname; congruence. }
    rewrite (search_no_open tok_reg); [done..|].
    simpl. by rewrite mem_app, Hlt. }
  rewrite (expand_none' _ _ _ Eg). by apply outside_none.
Qed.

Lemma expand_name_not_alphabetic_witness :
  expand (Str.angle "a1") {[ "a1" := Some "x" ]} false = Str.angle "a1".
Proof.
  apply (expand_name_not_alphabetic "a1" {[ "a1" := Some "x" ]} false);
    first [by right | by left | reflexivity].
Defined.

(** ** Expansion part by part *)

(** X8. Where no bracket is open, a character that is neither an ASCII
    letter nor one of [<], [>] and [[] cuts the template in two parts that
    expand on their own: so do the components of a path at each [/]. *)
Theorem expand_at_separator (c : ascii) (a b : string)
    (tokens : gmap string (option string)) (flag : bool) :
  is_alpha c = false →
  c ≠ "<"%char → c ≠ ">"%char → c ≠ "["%char →
  bracket_open a = false →
  expand (a +:+ String c b) tokens flag
  = expand a tokens flag +:+ String c (expand b tokens flag).
Proof.
  intros Halpha Hlt Hgt Hbr Ha.
  change (String c b) with (String c "" +:+ b).
  change (String c (expand b tokens flag)) with (String c "" +:+ expand b tokens flag).
  apply expand_separator; [| |done].
  - unfold separates. cbn [dangling starts_with re_open re_close re_class tok_reg].
    apply Ascii.eqb_neq in Hlt, Hgt. by rewrite Hlt, Hgt, Halpha.
  - cbn [dangling re_open grp_reg]. apply Ascii.eqb_neq in Hbr. by rewrite Hbr.
Qed.

Lemma expand_at_separator_witness :
  expand ("out/<Layer>" +:+ String "/" "[<RenderPass>_]img") {[ "Layer" := Some "fg" ]} true
  = expand "out/<Layer>" {[ "Layer" := Some "fg" ]} true
    +:+ String "/" (expand "[<RenderPass>_]img" {[ "Layer" := Some "fg" ]} true).
Proof.
  apply (expand_at_separator "/" "out/<Layer>" "[<RenderPass>_]img"
           {[ "Layer" := Some "fg" ]} true); first [reflexivity | discriminate].
Defined.

(** ** The string form and the dictionary it stands for *)

Lemma read_word (q : bool) (e : Shlex.state) (token w rest : string) :
  all_chars bare w = true →
  Shlex.read_token Shlex.Word q e token (w +:+ rest)
  = Shlex.read_token Shlex.Word q e (token +:+ w) rest.
Proof.
  revert token. induction w as [|a w IH]; intros token.
  - intros _. by rewrite sapp_nil_l, sapp_nil_r.
  - cbn [all_chars]. intros [Ha Hw]%andb_prop. rewrite sapp_cons. cbn [Shlex.read_token].
    unfold bare in Ha.
    apply andb_prop in Ha as [[Hws Hq]%andb_prop He].
    apply negb_true_iff in Hws, Hq, He. rewrite Hws, Hq, He.
    rewrite (IH _ Hw). unfold Shlex.snoc. by rewrite sapp_assoc.
Qed.

Lemma read_first (a : ascii) (s : string) :
  bare a = true →
  Shlex.read_token Shlex.Blank false Shlex.Blank "" (String a s)
  = Shlex.read_token Shlex.Word false Shlex.Blank (String a "") s.
Proof.
  intros Ha. cbn [Shlex.read_token]. unfold bare in Ha.
  apply andb_prop in Ha as [[Hws Hq]%andb_prop He].
  apply negb_true_iff in Hws, Hq, He. by rewrite Hws, Hq, He.
Qed.

Lemma shlex_join (words : list string) :
  Forall (λ w, w ≠ "" ∧ all_chars bare w = true) words →
  Shlex.split (join_with " " words) = inr words.
Proof.
  unfold Shlex.split. induction words as [|w words IH]; [done|].
  intros [[Hne Hw] Hall]%Forall_cons. specialize (IH Hall).
  destruct w as [|a w]; [done|]. simpl in Hw. apply andb_prop in Hw as [Ha Hw].
  destruct words as [|w' words].
  - cbn [join_with]. rewrite read_first by done.
    rewrite <- (sapp_nil_r w) at 1. rewrite read_word by done.
    by rewrite sapp_cons, sapp_nil_l.
  - change (join_with " " (String a w :: w' :: words))
      with (String a w +:+ " " +:+ join_with " " (w' :: words)).
    rewrite sapp_cons, read_first by done.
    rewrite read_word by done. rewrite !sapp_cons, !sapp_nil_l.
    cbn [Shlex.read_token]. simpl (Shlex.whitespace " ").
    cbn [Shlex.nonempty orb]. by rewrite IH.
Qed.

Lemma split_no_sep (sep : ascii) (s : string) :
  Str.mem sep s = false → Str.split sep s = [s].
Proof.
  induction s as [|a s IH]; [done|]. simpl. intros [Ha Hs]%orb_false_elim.
  rewrite Ascii.eqb_sym, Ha. by rewrite (IH Hs).
Qed.

Lemma split_at_sep (sep : ascii) (s t : string) :
  Str.mem sep s = false →
  Str.split sep (s +:+ String sep t) = s :: Str.split sep t.
Proof.
  induction s as [|a s IH].
  - intros _. rewrite sapp_nil_l. simpl. by rewrite Ascii.eqb_refl.
  - cbn [Str.mem]. intros [Ha Hs]%orb_false_elim. rewrite sapp_cons. cbn [Str.split].
    rewrite Ascii.eqb_sym, Ha. by rewrite (IH Hs).
Qed.

Lemma plain_no_equals (s : string) : all_chars plain s = true → Str.mem "=" s = false.
Proof.
  induction s as [|a s IH]; [done|]. cbn [all_chars Str.mem]. intros [Ha Hs]%andb_prop.
  rewrite (IH Hs), orb_false_r. unfold plain in Ha.
  apply andb_prop in Ha as [_ Ha]. apply negb_true_iff in Ha.
  by rewrite Ascii.eqb_sym.
Qed.

Lemma plain_bare (s : string) : all_chars plain s = true → all_chars bare s = true.
Proof.
  induction s as [|a s IH]; [done|]. cbn [all_chars]. intros [Ha Hs]%andb_prop.
  rewrite (IH Hs). unfold plain in Ha. apply andb_prop in Ha as [-> _]. done.
Qed.

Lemma dict_pairs (pairs : list (string * string)) (d : gmap string (option string)) :
  dict ((λ pair, [pair.1; pair.2]) <$> pairs) d
  = inr (foldl (λ d pair, <[pair.1 := Some pair.2]> d) d pairs).
Proof.
  revert d. induction pairs as [|[k v] pairs IH]; intros d; [done|].
  simpl. apply IH.
Qed.

(** X9. A string of words [key=value] between single spaces, whose keys and
    values hold no whitespace, quote, backslash or [=], stands for the
    dictionary of its pairs, a later pair replacing an earlier one with the
    same key: the string form gives the result of that dictionary. *)
Theorem string_form_is_dict (path : string) (pairs : list (string * string)) (flag : bool) :
  Forall (λ pair, all_chars plain pair.1 = true ∧ all_chars plain pair.2 = true) pairs →
  expandFileTokens path
    (TokensStr (join_with " " ((λ pair, pair.1 +:+ "=" +:+ pair.2) <$> pairs))) flag
  = expandFileTokens path (TokensDict (dict_of pairs)) flag.
Proof.
  intros Hall. unfold expandFileTokens. rewrite shlex_join.
  - rewrite <- list_fmap_compose.
    rewrite (list_fmap_ext _ (λ pair, [pair.1; pair.2]) pairs).
    + by rewrite dict_pairs.
    + intros i [k v] Hi. simpl.
      apply list_elem_of_lookup_2 in Hi. rewrite Forall_forall in Hall.
      destruct (Hall _ Hi) as [Hk Hv]. simpl in Hk, Hv.
      change (k +:+ "=" +:+ v) with (k +:+ String "=" v).
      rewrite split_at_sep by by apply plain_no_equals.
      by rewrite split_no_sep by by apply plain_no_equals.
  - apply Forall_fmap. eapply Forall_impl; [exact Hall|].
    intros [k v] [Hk Hv]. cbn [fst snd] in *. split.
    + by destruct k.
    + change (all_chars bare (k +:+ String "=" v) = true).
      rewrite all_chars_app. cbn [all_chars].
      by rewrite (plain_bare k), (plain_bare v).
Qed.

Lemma string_form_is_dict_witness :
  expandFileTokens "<Layer>[_<RenderPass>]"
    (TokensStr (join_with " " ((λ pair, pair.1 +:+ "=" +:+ pair.2)
                               <$> [("Layer", "a"); ("RenderPass", "b"); ("Layer", "c")])))
    false
  = expandFileTokens "<Layer>[_<RenderPass>]"
      (TokensDict (dict_of [("Layer", "a"); ("RenderPass", "b"); ("Layer", "c")])) false.
Proof.
  apply (string_form_is_dict "<Layer>[_<RenderPass>]"
           [("Layer", "a"); ("RenderPass", "b"); ("Layer", "c")] false).
  repeat constructor.
Defined.

Example string_form_later_pair :
  expandFileTokens "<Layer>[_<RenderPass>]" (TokensStr "Layer=a RenderPass=b Layer=c") false
  = inr "c_b".
Proof. vm_compute. reflexivity. Qed.

(** * The helpers around the scene *)

(** ** [proj_name] *)

Lemma split_join (sep : ascii) (parts : list string) :
  parts ≠ [] → Forall (λ part, Str.mem sep part = false) parts →
  Str.split sep (join_with (String sep "") parts) = parts.
Proof.
  induction parts as [|part parts IH]; [done|]. intros _ [Hpart Hall]%Forall_cons.
  destruct parts as [|part' parts].
  - by apply split_no_sep.
  - change (join_with (String sep "") (part :: part' :: parts))
      with (part +:+ String sep "" +:+ join_with (String sep "") (part' :: parts)).
    rewrite sapp_cons, sapp_nil_l, split_at_sep by done. by rewrite IH.
Qed.

Lemma index_first (x : string) (before after : list string) :
  x ∉ before → index x (before ++ x :: after) = Some (length before).
Proof.
  induction before as [|y before IH]; simpl.
  - intros _. by rewrite decide_True.
  - intros [Hy Hbefore]%not_elem_of_cons. rewrite decide_False by done.
    by rewrite IH.
Qed.

(** X10. In a project directory whose components hold a component [show],
    [proj_name] is the component that follows the first [show]. *)
Theorem proj_name_after_show (sep : ascii) (before : list string) (name : string)
    (after : list string) :
  Forall (λ part, Str.mem sep part = false) (before ++ "show" :: name :: after) →
  "show" ∉ before →
  proj_name sep (join_with (String sep "") (before ++ "show" :: name :: after)) = inr name.
Proof.
  intros Hparts Hbefore. unfold proj_name.
  rewrite split_join by (by destruct before || done).
  rewrite bool_decide_true by (apply elem_of_app; right; by left).
  rewrite index_first by done.
  rewrite lookup_app_r by lia.
  replace (length before + 1 - length before) with 1 by lia. done.
Qed.

Lemma proj_name_after_show_witness :
  proj_name "/" (join_with (String "/" "") [""; "mnt"; "show"; "robots"; "maya"; ""])
  = inr "robots".
Proof.
  apply (proj_name_after_show "/" [""; "mnt"] "robots" ["maya"; ""]).
  - repeat constructor.
  - intros H. apply list_elem_of_In in H. simpl in H. by destruct H as [|[|]].
Defined.

(** X11. When the first component [show] is the last component of the
    project directory, [proj_name] raises [IndexError]. *)
Theorem proj_name_show_last (sep : ascii) (before : list string) :
  Forall (λ part, Str.mem sep part = false) (before ++ ["show"]) →
  "show" ∉ before →
  proj_name sep (join_with (String sep "") (before ++ ["show"])) = inl IndexError.
Proof.
  intros Hparts Hbefore. unfold proj_name.
  rewrite split_join by (by destruct before || done).
  rewrite bool_decide_true by (apply elem_of_app; right; by left).
  rewrite index_first by done.
  rewrite lookup_ge_None_2; [done|]. rewrite length_app. simpl. lia.
Qed.

Lemma proj_name_show_last_witness :
  proj_name "/" (join_with (String "/" "") [""; "mnt"; "show"]) = inl IndexError.
Proof.
  apply (proj_name_show_last "/" [""; "mnt"]).
  - repeat constructor.
  - intros H. apply list_elem_of_In in H. simpl in H. by destruct H as [|[|]].
Defined.

(** X12. A project directory with no component [show] gives the name
    [alex_test]; a component that only contains [show], as [myshow] does,
    does not count. *)
Theorem proj_name_default (sep : ascii) (parts : list string) :
  parts ≠ [] →
  Forall (λ part, Str.mem sep part = false) parts →
  "show" ∉ parts →
  proj_name sep (join_with (String sep "") parts) = inr "alex_test".
Proof.
  intros Hne Hparts Hshow. unfold proj_name.
  rewrite split_join by done. by rewrite bool_decide_false.
Qed.

Lemma proj_name_default_witness :
  proj_name "/" (join_with (String "/" "") [""; "mnt"; "myshow"; "robots"]) = inr "alex_test".
Proof.
  apply (proj_name_default "/" [""; "mnt"; "myshow"; "robots"]).
  - done.
  - repeat constructor.
  - intros H. apply list_elem_of_In in H. simpl in H. by destruct H as [|[|[|[|]]]].
Defined.

(** ** [init_layers] *)

Lemma interleaved_cons n ns pairs :
  interleaved ((n, ns) :: pairs) = n :: ns :: interleaved pairs.
Proof. reflexivity. Qed.

Lemma length_interleaved pairs : length (interleaved pairs) = 2 * length pairs.
Proof.
  induction pairs as [|[n ns] pairs IH]; [done|].
  rewrite interleaved_cons. cbn [length]. rewrite IH. lia.
Qed.

Lemma init_layers_loop_pairs pairs :
  ∀ pre m layers tail,
  length pre = 2 * m →
  init_layers_loop (pre ++ interleaved pairs ++ tail)
    ((λ k, 2 * k) <$> seq m (length pairs)) layers
  = Some (layers ++ (fst <$> filter (λ pair, pair.2 = ":") pairs)).
Proof.
  induction pairs as [|[n ns] pairs IH]; intros pre m layers tail Hpre.
  - simpl. by rewrite app_nil_r.
  - rewrite interleaved_cons. cbn [length seq]. rewrite fmap_cons.
    cbn [init_layers_loop].
    rewrite lookup_app_r by lia.
    replace (2 * m + 1 - length pre) with 1 by lia. cbn [lookup list_lookup app].
    rewrite lookup_app_r by lia.
    replace (2 * m - length pre) with 0 by lia. cbn [lookup list_lookup].
    rewrite filter_cons. cbn [snd].
    replace (pre ++ n :: ns :: interleaved pairs ++ tail)
      with ((pre ++ [n; ns]) ++ interleaved pairs ++ tail)
      by (by rewrite <- !app_assoc).
    destruct (decide (ns = ":")) as [->|Hns].
    + rewrite (IH _ (S m)) by (rewrite length_app; simpl; lia).
      rewrite fmap_cons. cbn [fst]. by rewrite <- app_assoc.
    + by rewrite (IH _ (S m)) by (rewrite length_app; simpl; lia).
Qed.

Lemma init_layers_loop_odd pairs :
  ∀ pre m layers x,
  length pre = 2 * m →
  init_layers_loop (pre ++ interleaved pairs ++ [x])
    ((λ k, 2 * k) <$> seq m (S (length pairs))) layers
  = None.
Proof.
  induction pairs as [|[n ns] pairs IH]; intros pre m layers x Hpre.
  - cbn [length seq interleaved concat app]. rewrite fmap_cons.
    cbn [init_layers_loop fmap list_fmap].
    rewrite lookup_ge_None_2; [done|]. rewrite length_app. simpl. lia.
  - rewrite interleaved_cons.
    change (seq m (S (length ((n, ns) :: pairs))))
      with (m :: seq (S m) (S (length pairs))).
    rewrite fmap_cons. cbn [init_layers_loop].
    rewrite lookup_app_r by lia.
    replace (2 * m + 1 - length pre) with 1 by lia. cbn [lookup list_lookup app].
    rewrite lookup_app_r by lia.
    replace (2 * m - length pre) with 0 by lia. cbn [lookup list_lookup].
    replace (pre ++ n :: ns :: interleaved pairs ++ [x])
      with ((pre ++ [n; ns]) ++ interleaved pairs ++ [x])
      by (by rewrite <- !app_assoc).
    destruct (decide (ns = ":")); apply (IH _ (S m)); rewrite length_app; simpl; lia.
Qed.

(** X13. When the host lists the render layers as names each followed by
    its namespace, [init_layers] keeps the names whose namespace is [:], in
    the order of the list, and does not use the plain list of layers. *)
Theorem init_layers_root_namespace (pairs : list (string * string))
    (render_layers : list string) :
  init_layers (interleaved pairs) render_layers
  = fst <$> filter (λ pair, pair.2 = ":") pairs.
Proof.
  unfold init_layers, range2. rewrite length_interleaved, Nat.div2_succ_double.
  pose proof (init_layers_loop_pairs pairs [] 0 [] [] eq_refl) as H.
  rewrite app_nil_r in H. cbn [app] in H. by rewrite H.
Qed.

(** X14. When that list has an odd number of items, the index past its end
    raises inside the [try]: the names collected so far are given up and
    [init_layers] uses the plain list of layers. *)
Theorem init_layers_odd_list (pairs : list (string * string)) (x : string)
    (render_layers : list string) :
  init_layers (interleaved pairs ++ [x]) render_layers = render_layers.
Proof.
  unfold init_layers, range2. rewrite length_app, length_interleaved. cbn [length].
  replace (S (2 * length pairs + 1)) with (2 * S (length pairs)) by lia.
  rewrite Nat.div2_double.
  pose proof (init_layers_loop_odd pairs [] 0 [] x eq_refl) as H.
  cbn [app] in H. by rewrite H.
Qed.

Example init_layers_namespaces :
  init_layers ["defaultRenderLayer"; ":"; "fg"; ":"; "ref:bg"; ":ref"] ["unused"]
  = ["defaultRenderLayer"; "fg"].
Proof. vm_compute. reflexivity. Qed.

(** ** [get_default_extension] *)

Lemma words_word (s : string) :
  ∀ word, all_chars (λ a, negb (Ascii.is_space a)) s = true → word +:+ s ≠ "" →
  words_from word s = [word +:+ s].
Proof.
  induction s as [|a s IH]; intros word.
  - intros _. rewrite sapp_nil_r. by destruct word.
  - cbn [all_chars words_from]. intros [Ha Hs]%andb_prop Hne.
    apply negb_true_iff in Ha. rewrite Ha. rewrite IH; [|done|].
    + by rewrite sapp_assoc.
    + rewrite sapp_assoc. by destruct word.
Qed.

Lemma words_last (s w : string) :
  ∀ word, w ≠ "" → all_chars (λ a, negb (Ascii.is_space a)) w = true →
  last (words_from word (s +:+ String " " w)) = Some w.
Proof.
  induction s as [|a s IH]; intros word Hne Hw.
  - rewrite sapp_nil_l. cbn [words_from]. simpl (Ascii.is_space " ").
    rewrite (words_word w "") by done. rewrite sapp_nil_l.
    by destruct word.
  - rewrite sapp_cons. cbn [words_from]. destruct (Ascii.is_space a).
    + destruct word; [by apply IH|]. rewrite last_cons. by rewrite IH.
    + by apply IH.
Qed.

Lemma words_blank (s : string) :
  all_chars Ascii.is_space s = true → words_from "" s = [].
Proof.
  induction s as [|a s IH]; [done|]. cbn [all_chars words_from].
  intros [-> Hs]%andb_prop. by apply IH.
Qed.

Lemma but_last_snoc (s : string) (a : ascii) : but_last (s +:+ String a "") = s.
Proof.
  induction s as [|b s IH]; [done|]. rewrite sapp_cons. cbn [but_last].
  rewrite IH. destruct s; [done|]. by rewrite sapp_cons.
Qed.

(** X15. For the software and the mental ray renderer the extension is
    read off the label of the image format menu: when the label ends with
    a word [(ext)] after a space, [get_default_extension] returns [ext]. *)
Theorem default_extension_of_label (SOFTWARE_RENDERER MENTAL_RAY_RENDERER : string)
    (optionMenuGrp : string → option string) (renderer label ext : string) :
  renderer = SOFTWARE_RENDERER ∨ renderer = MENTAL_RAY_RENDERER →
  optionMenuGrp (if decide (renderer = SOFTWARE_RENDERER)
                 then "imageMenuMayaSW" else "imageMenuMentalRay")
  = Some (label +:+ " (" +:+ ext +:+ ")") →
  all_chars (λ a, negb (Ascii.is_space a)) ext = true →
  get_default_extension SOFTWARE_RENDERER MENTAL_RAY_RENDERER optionMenuGrp renderer
  = inr ext.
Proof.
  intros Hrenderer Hmenu Hext. unfold get_default_extension.
  assert (last (split_words (label +:+ " (" +:+ ext +:+ ")")) = Some ("(" +:+ ext +:+ ")")) as Hlast.
  { change (label +:+ " (" +:+ ext +:+ ")")
      with (label +:+ String " " ("(" +:+ ext +:+ ")")).
    apply words_last; [done|].
    change ("(" +:+ ext +:+ ")") with (String "(" (ext +:+ ")")).
    cbn [all_chars]. rewrite all_chars_app, Hext. done. }
  assert (inner ("(" +:+ ext +:+ ")") = ext) as Hinner.
  { change ("(" +:+ ext +:+ ")") with (String "(" (ext +:+ String ")" "")).
    cbn [inner]. apply but_last_snoc. }
  destruct (decide (renderer = SOFTWARE_RENDERER)) as [Hsw|Hsw].
  - by rewrite Hmenu, Hlast, Hinner.
  - destruct Hrenderer as [?|Hmr]; [done|]. rewrite decide_True by done.
    by rewrite Hmenu, Hlast, Hinner.
Qed.

Lemma default_extension_of_label_witness :
  get_default_extension "sw" "mr"
    (λ menu_grp, if decide (menu_grp = "imageMenuMentalRay")
                 then Some "OpenEXR (exr)" else None) "mr"
  = inr "exr".
Proof.
  apply (default_extension_of_label "sw" "mr"
           (λ menu_grp, if decide (menu_grp = "imageMenuMentalRay")
                        then Some "OpenEXR (exr)" else None) "mr" "OpenEXR" "exr").
  - by right.
  - vm_compute. reflexivity.
  - reflexivity.
Defined.

(** X16. A renderer that is neither of the two is refused before the host
    is asked anything, and a label of the menu that is empty or all white
    space has no last word: [get_default_extension] raises [IndexError]. *)
Theorem default_extension_edges (SOFTWARE_RENDERER MENTAL_RAY_RENDERER : string)
    (optionMenuGrp : string → option string) (renderer label : string) :
  (renderer ≠ SOFTWARE_RENDERER → renderer ≠ MENTAL_RAY_RENDERER →
   get_default_extension SOFTWARE_RENDERER MENTAL_RAY_RENDERER optionMenuGrp renderer
   = inl (Exception ("Invalid Renderer: " +:+ renderer)))
  ∧ (renderer = SOFTWARE_RENDERER ∨ renderer = MENTAL_RAY_RENDERER →
     optionMenuGrp (if decide (renderer = SOFTWARE_RENDERER)
                    then "imageMenuMayaSW" else "imageMenuMentalRay") = Some label →
     all_chars Ascii.is_space label = true →
     get_default_extension SOFTWARE_RENDERER MENTAL_RAY_RENDERER optionMenuGrp renderer
     = inl IndexError).
Proof.
  split.
  - intros Hsw Hmr. unfold get_default_extension.
    by rewrite !decide_False by done.
  - intros Hrenderer Hmenu Hblank. unfold get_default_extension.
    assert (last (split_words label) = None) as Hlast.
    { unfold split_words. by rewrite words_blank. }
    destruct (decide (renderer = SOFTWARE_RENDERER)) as [Hsw|Hsw].
    + by rewrite Hmenu, Hlast.
    + destruct Hrenderer as [?|Hmr]; [done|]. rewrite decide_True by done.
      by rewrite Hmenu, Hlast.
Qed.

Lemma default_extension_edges_witness :
  get_default_extension "sw" "mr" (λ _, Some "  ") "sw" = inl IndexError.
Proof.
  refine (proj2 (default_extension_edges "sw" "mr" (λ _, Some "  ") "sw" "  ") _ _ _).
  - by left.
  - reflexivity.
  - reflexivity.
Defined.
(** * Submission *)

(** ** [get_render_params] *)

Lemma with_int_inr {FS A} (h : host FS) name (k : Z → pyerror + A) x :
  with_int h name k = inr x → ∃ z, int h (text h name) = Some z ∧ k z = inr x.
Proof. unfold with_int. destruct (int h (text h name)); [eauto|done]. Qed.

Lemma with_int_Some {FS A} (h : host FS) name (k : Z → pyerror + A) z :
  int h (text h name) = Some z → with_int h name k = k z.
Proof. unfold with_int. by intros ->. Qed.

Lemma with_int_None {FS A} (h : host FS) name (k : Z → pyerror + A) :
  int h (text h name) = None → with_int h name k = inl (ValueError_int (text h name)).
Proof. unfold with_int. by intros ->. Qed.

Lemma inr_eq {A B} (x y : B) : @inr A B x = inr y → y = x.
Proof. by intros [= ->]. Qed.

(** The parameters are a dictionary [before] with the two V-Ray options
    added: [before] holds the state of the check box [upload_only] and a
    renderer, and no selected layers. *)
Lemma render_params_shape {FS} (h : host FS) params :
  get_render_params h = inr params →
  ∃ before r,
    before !! "upload_only" = Some (VInt (int_of_bool (checked h "upload_only")))
    ∧ before !! "renderer" = Some (VStr r)
    ∧ before !! "selected_layers" = None
    ∧ params =
      <["use_vrscene" :=
          VInt (if bool_decide (before !! "upload_only" = Some (VInt 0)
                                ∧ before !! "renderer" = Some (VStr "vray"))
                then int_of_bool (checked h "use_vrscene") else 0)]>
        (<["vray_nightly" :=
             VInt (if bool_decide (before !! "upload_only" = Some (VInt 0)
                                   ∧ before !! "renderer" = Some (VStr "vray"))
                   then int_of_bool (checked h "vray_nightly") else 0)]> before).
Proof.
  intros H. unfold get_render_params in H.
  apply with_int_inr in H as (? & _ & H); apply with_int_inr in H as (? & _ & H).
  apply with_int_inr in H as (? & _ & H); apply with_int_inr in H as (? & _ & H).
  apply with_int_inr in H as (? & _ & H); apply inr_eq in H. cbv zeta in H.
  eexists _, _. split; [|split; [|split; [|exact H]]].
  - rewrite !lookup_insert_ne by discriminate. apply lookup_insert_eq.
  - rewrite !lookup_insert_ne by discriminate. apply lookup_insert_eq.
  - rewrite !lookup_insert_ne by discriminate.
    case_decide; rewrite ?lookup_insert_ne by discriminate; apply lookup_empty.
Qed.

Lemma render_params_upload_only {FS} (h : host FS) params :
  get_render_params h = inr params →
  params !! "upload_only" = Some (VInt (int_of_bool (checked h "upload_only"))).
Proof.
  intros (before & r & Hup & _ & _ & ->)%render_params_shape.
  by rewrite !lookup_insert_ne by discriminate.
Qed.

Lemma render_params_no_selected_layers {FS} (h : host FS) params :
  get_render_params h = inr params → params !! "selected_layers" = None.
Proof.
  intros (before & r & _ & _ & Hsel & ->)%render_params_shape.
  by rewrite !lookup_insert_ne by discriminate.
Qed.

(** X17. In the parameters [get_render_params] returns, [vray_nightly] and
    [use_vrscene] are 0 whenever the job is upload-only or the renderer is
    not [vray], whatever the two check boxes say. *)
Theorem render_params_vray_options {FS} (h : host FS) (params : gmap string value) :
  get_render_params h = inr params →
  checked h "upload_only" = true ∨ params !! "renderer" ≠ Some (VStr "vray") →
  params !! "vray_nightly" = Some (VInt 0) ∧ params !! "use_vrscene" = Some (VInt 0).
Proof.
  intros (before & r & Hup & Hr & _ & ->)%render_params_shape.
  intros Hor. do 2 rewrite lookup_insert_ne in Hor by discriminate.
  match goal with |- context [bool_decide ?P] => assert (¬ P) as Hnot end.
  { intros [Hup' Hr']. destruct Hor as [Hc|Hne]; [|done].
    rewrite Hup, Hc in Hup'. discriminate Hup'. }
  split.
  - rewrite lookup_insert_ne by discriminate. rewrite lookup_insert_eq.
    by rewrite (bool_decide_false _ Hnot).
  - rewrite lookup_insert_eq. by rewrite (bool_decide_false _ Hnot).
Qed.

Lemma render_params_vray_options_witness :
  ∃ params, get_render_params (demo_host true) = inr params
            ∧ params !! "vray_nightly" = Some (VInt 0)
            ∧ params !! "use_vrscene" = Some (VInt 0).
Proof.
  eexists. split; [reflexivity|].
  apply (render_params_vray_options (demo_host true)); [reflexivity|].
  left. reflexivity.
Defined.

Lemma render_params_renderer {FS} (h : host FS) params :
  get_render_params h = inr params →
  params !! "renderer"
  = Some (VStr match list_find (λ kv, kv.2 = chosen h "renderer") (MAYA_RENDERERS h) with
               | Some (_, (k, _)) => k
               | None => MAYA_DEFAULT_RENDERER h
               end).
Proof.
  intros H. unfold get_render_params in H.
  apply with_int_inr in H as (? & _ & H); apply with_int_inr in H as (? & _ & H).
  apply with_int_inr in H as (? & _ & H); apply with_int_inr in H as (? & _ & H).
  apply with_int_inr in H as (? & _ & H); apply inr_eq in H. cbv zeta in H.
  rewrite H. rewrite !lookup_insert_ne by discriminate. apply lookup_insert_eq.
Qed.

(** X18. With a form that answers every query, the only exception of
    [get_render_params] is the [ValueError] of [int]: it is raised for the
    first of the five numeric text fields, in the order [num_instances],
    [frame_step], [chunk_size], [x_res], [y_res], whose text is not a
    number, and names that text; when the five are numbers the function
    returns. *)
Theorem render_params_first_bad_number {FS} (h : host FS) :
  match list_find (λ name, int h (text h name) = None) numeric_fields with
  | Some (_, name) => get_render_params h = inl (ValueError_int (text h name))
  | None => ∃ params, get_render_params h = inr params
  end.
Proof.
  unfold numeric_fields. cbn [list_find].
  destruct (int h (text h "num_instances")) as [z1|] eqn:E1;
    [rewrite decide_False by done|rewrite decide_True by done];
    [destruct (int h (text h "frame_step")) as [z2|] eqn:E2;
       [rewrite decide_False by done|rewrite decide_True by done];
     [destruct (int h (text h "chunk_size")) as [z3|] eqn:E3;
        [rewrite decide_False by done|rewrite decide_True by done];
      [destruct (int h (text h "x_res")) as [z4|] eqn:E4;
         [rewrite decide_False by done|rewrite decide_True by done];
       [destruct (int h (text h "y_res")) as [z5|] eqn:E5;
          [rewrite decide_False by done|rewrite decide_True by done]|]|]|]|];
    cbn [fmap option_fmap option_map prod_map fst snd id];
    unfold get_render_params; cbv zeta;
    rewrite ?(with_int_Some h _ _ _ E1), ?(with_int_Some h _ _ _ E2),
      ?(with_int_Some h _ _ _ E3), ?(with_int_Some h _ _ _ E4),
      ?(with_int_Some h _ _ _ E5);
    [by eexists|by apply with_int_None..].
Qed.

(** X19. When the label chosen in the menu [renderer] is one of those
    [init_renderer] put there, [get_render_params] stores under [renderer]
    a key of [zync.MAYA_RENDERERS] whose label is the chosen one, and never
    falls back on the default renderer for want of a match. *)
Theorem renderer_menu_round_trip {FS} (h : host FS) (menu : list string)
    (params : gmap string value) :
  init_renderer h = inr menu →
  chosen h "renderer" ∈ menu →
  get_render_params h = inr params →
  ∃ k, (k, chosen h "renderer") ∈ MAYA_RENDERERS h ∧ params !! "renderer" = Some (VStr k).
Proof.
  intros Hmenu Hchosen Hparams. rewrite (render_params_renderer h params Hparams).
  assert (chosen h "renderer" ∈ (MAYA_RENDERERS h).*2) as Hlabel.
  { unfold init_renderer in Hmenu.
    destruct (list_find _ (MAYA_RENDERERS h)) as [[i [k0 name]]|] eqn:Hfind; [|done].
    apply inr_eq in Hmenu. subst menu.
    apply elem_of_cons in Hchosen as [->|Hin].
    - apply list_find_Some in Hfind as (Hi & _ & _).
      apply list_elem_of_fmap. exists (k0, name). split; [done|].
      by eapply list_elem_of_lookup_2.
    - by apply list_elem_of_filter in Hin as [_ ?]. }
  apply list_elem_of_fmap in Hlabel as ([k label] & Heq & Hin). cbn in Heq.
  destruct (list_find _ (MAYA_RENDERERS h)) as [[i [k' label']]|] eqn:Hfind.
  - apply list_find_Some in Hfind as (Hi & Hlab & _). cbn in Hlab. subst label'.
    exists k'. split; [|done]. by eapply list_elem_of_lookup_2.
  - apply list_find_None in Hfind. rewrite Forall_forall in Hfind.
    by destruct (Hfind _ Hin).
Qed.

Lemma renderer_menu_round_trip_witness :
  ∃ params k, get_render_params (demo_host false) = inr params
              ∧ (k, "Mental Ray") ∈ MAYA_RENDERERS (demo_host false)
              ∧ params !! "renderer" = Some (VStr k).
Proof.
  eexists.
  edestruct (renderer_menu_round_trip (demo_host false)
               ["V-Ray"; "Mental Ray"; "Maya Software"]) as (k & Hk & Hr);
    [reflexivity|apply list_elem_of_further, list_elem_of_here|reflexivity|].
  exists k. split; [reflexivity|split; [exact Hk|exact Hr]].
Defined.

(** ** [create_local_paths] *)

Section Local_paths_facts.
Context {FS : Type}.
Variable h : host FS.

Lemma layers_loop_no_passes layer_paths renderer passes_of layers (fs : FS) :
  Forall (λ layer, default [] (passes_of !! layer) = []) layers →
  layers_loop h layer_paths renderer passes_of layers fs = (None, fs).
Proof.
  induction layers as [|layer layers IH]; [done|].
  intros [Hlayer Hall]%Forall_cons. cbn [layers_loop]. rewrite Hlayer. by apply IH.
Qed.

Lemma layers_loop_app layer_paths renderer passes_of layers1 layers2 (fs : FS) :
  layers_loop h layer_paths renderer passes_of (layers1 ++ layers2) fs
  = match layers_loop h layer_paths renderer passes_of layers1 fs with
    | (None, fs') => layers_loop h layer_paths renderer passes_of layers2 fs'
    | (Some e, fs') => (Some e, fs')
    end.
Proof.
  revert fs. induction layers1 as [|layer layers1 IH]; intros fs; [done|].
  cbn [app layers_loop].
  destruct (passes_loop h layer_paths renderer layer _ fs) as [[e|] fs']; [done|].
  apply IH.
Qed.

End Local_paths_facts.

(** X20. The check after the loops of [create_local_paths] reads the
    variable [layer] that the loop over the selected layers leaves behind.
    With no selected layer the variable is unbound and the function raises
    [UnboundLocalError]; when no selected layer has a pass, the one
    directory the function makes sure of is that of the last selected
    layer. *)
Theorem local_paths_last_layer {FS} (h : host FS) (params : local_paths) (fs : FS) :
  (selected_layers params = [] →
   create_local_paths h params fs = (Some (UnboundLocalError "layer"), fs))
  ∧ (∀ layer path,
       Forall (λ layer, default [] (layer_passes (scene_info params) !! layer) = [])
         (selected_layers params) →
       last (selected_layers params) = Some layer →
       layer_paths_of h (out_path params) (file_prefix (scene_info params)) !! layer
       = Some path →
       create_local_paths h params fs = ensure_dir h path fs).
Proof.
  split.
  - intros Hsel. unfold create_local_paths. by rewrite Hsel.
  - intros layer path Hall Hlast Hpath. unfold create_local_paths.
    rewrite layers_loop_no_passes by done. rewrite Hlast.
    rewrite Forall_forall in Hall. rewrite (Hall layer).
    + by rewrite Hpath.
    + apply last_Some in Hlast as [l' ->]. apply elem_of_app. right. by left.
Qed.

Lemma local_paths_last_layer_witness :
  create_local_paths (demo_host false)
    (Local_paths "out" (Info ("<Layer>/img", [{[ "fg" := "<Layer>/fg" ]}]) ∅) [] "mr") ∅
  = (Some (UnboundLocalError "layer"), ∅)
  ∧ create_local_paths (demo_host false)
      (Local_paths "out" (Info ("<Layer>/img", [{[ "fg" := "<Layer>/fg" ]}]) ∅)
         ["fg"; "defaultRenderLayer"] "mr") ∅
    = ensure_dir (demo_host false) "out/masterLayer/img" ∅.
Proof.
  split.
  - apply (proj1 (local_paths_last_layer (demo_host false)
             (Local_paths "out" (Info ("<Layer>/img", [{[ "fg" := "<Layer>/fg" ]}]) ∅)
                [] "mr") ∅)).
    reflexivity.
  - refine (proj2 (local_paths_last_layer (demo_host false)
              (Local_paths "out" (Info ("<Layer>/img", [{[ "fg" := "<Layer>/fg" ]}]) ∅)
                 ["fg"; "defaultRenderLayer"] "mr") ∅) "defaultRenderLayer" _ _ _ _).
    + repeat constructor.
    + reflexivity.
    + vm_compute. reflexivity.
Defined.

(** X21. A selected layer that has a pass but no path among the paths of
    the layers stops [create_local_paths] with a [KeyError], before any
    directory is made, when the layers selected before it have no pass. *)
Theorem local_paths_missing_layer {FS} (h : host FS) (params : local_paths) (fs : FS)
    (before : list string) (layer : string) (after : list string)
    (pass_name : string) (passes : list string) :
  selected_layers params = before ++ layer :: after →
  Forall (λ layer, default [] (layer_passes (scene_info params) !! layer) = []) before →
  layer_passes (scene_info params) !! layer = Some (pass_name :: passes) →
  layer_paths_of h (out_path params) (file_prefix (scene_info params)) !! layer = None →
  create_local_paths h params fs = (Some (KeyError layer), fs).
Proof.
  intros Hsel Hbefore Hpasses Hpath. unfold create_local_paths.
  rewrite Hsel, layers_loop_app, layers_loop_no_passes by done.
  cbn [layers_loop]. rewrite Hpasses. cbn [default from_option id passes_loop].
  by rewrite Hpath.
Qed.

Lemma local_paths_missing_layer_witness :
  create_local_paths (demo_host false)
    (Local_paths "out" (Info ("<Layer>/img", [{[ "fg" := "<Layer>/fg" ]}])
                          {[ "bg" := ["beauty"] ]})
       ["fg"; "bg"] "mr") ∅
  = (Some (KeyError "bg"), ∅).
Proof.
  apply (local_paths_missing_layer (demo_host false)
           (Local_paths "out" (Info ("<Layer>/img", [{[ "fg" := "<Layer>/fg" ]}])
                                 {[ "bg" := ["beauty"] ]})
              ["fg"; "bg"] "mr") ∅ ["fg"] "bg" [] "beauty" []).
  - reflexivity.
  - repeat constructor.
  - vm_compute. reflexivity.
  - vm_compute. reflexivity.
Defined.

(** ** [submit] *)

Lemma submit_without_job {FS} (h : host FS) (fs : FS) params :
  checked h "upload_only" = true →
  get_render_params h = inr params →
  submit h fs =
  if decide (text h "username" = "" ∨ text h "password" = "")
  then (inl (MayaZyncException "Please enter a ZYNC username and password."), fs)
  else if negb (authenticate h (text h "username") (text h "password"))
  then (inl (MayaZyncException "ZYNC Username Authentication Failed"), fs)
  else (inl (KeyError "selected_layers"), fs).
Proof.
  intros Hup E. unfold submit. rewrite E.
  pose proof (render_params_upload_only h params E) as Hu. rewrite Hup in Hu.
  pose proof (render_params_no_selected_layers h params E) as Hs.
  rewrite Hu. rewrite bool_decide_true by done.
  destruct (decide _); [done|]. destruct (negb _); [done|].
  rewrite lookup_insert_ne by discriminate. rewrite Hu.
  rewrite bool_decide_false by discriminate.
  rewrite lookup_insert_ne by discriminate. by rewrite Hs.
Qed.

(** X22. With the check box [upload_only] set, [submit] never reaches
    [submit_job]: it raises, and leaves the file system as it was.  When
    the numbers of the form are read, the user name and the password are
    given and the log-in succeeds, the exception is the [KeyError] of
    [del params['selected_layers']], a key that is set only for a job that
    renders. *)
Theorem submit_upload_only {FS} (h : host FS) (fs : FS) :
  checked h "upload_only" = true →
  (∃ e, submit h fs = (inl e, fs))
  ∧ (∀ params, get_render_params h = inr params →
       text h "username" ≠ "" → text h "password" ≠ "" →
       authenticate h (text h "username") (text h "password") = true →
       submit h fs = (inl (KeyError "selected_layers"), fs)).
Proof.
  intros Hup. split.
  - destruct (get_render_params h) as [e|params] eqn:E.
    + exists e. unfold submit. by rewrite E.
    + rewrite (submit_without_job h fs params Hup E).
      destruct (decide _); [eauto|]. destruct (negb _); eauto.
  - intros params E Huser Hpass Hauth. rewrite (submit_without_job h fs params Hup E).
    rewrite decide_False by tauto. by rewrite Hauth.
Qed.

Lemma submit_upload_only_witness :
  submit (demo_host true) ∅ = (inl (KeyError "selected_layers"), ∅).
Proof.
  eapply (proj2 (submit_upload_only (demo_host true) ∅ eq_refl));
    [reflexivity|discriminate|discriminate|reflexivity].
Defined.

(** X23. A job reaches [submit_job] only from a form whose check box
    [upload_only] is off and whose list of layers has a selection: the
    layers handed over are the selected ones joined by commas, the scene
    path is that of the scene, and the parameters no longer hold
    [selected_layers], nor [layer_passes] in their [scene_info]. *)
Theorem submit_job_arguments {FS} (h : host FS) (fs fs' : FS) (j : job) :
  submit h fs = (inr j, fs') →
  checked h "upload_only" = false
  ∧ (∃ layers, selected h = Some layers ∧ layers ≠ []
               ∧ job_layers j = Some (join_with "," layers))
  ∧ job_scene_path j = scene_path h
  ∧ job_params j !! "selected_layers" = None
  ∧ (∃ scene_info, job_params j !! "scene_info" = Some (VInfo scene_info false))
  ∧ job_params j !! "upload_only" = Some (VInt 0).
Proof.
  intros Hjob.
  destruct (get_render_params h) as [e|params] eqn:E;
    [unfold submit in Hjob; by rewrite E in Hjob|].
  destruct (checked h "upload_only") eqn:Hup.
  { rewrite (submit_without_job h fs params Hup E) in Hjob.
    destruct (decide _); [done|]. by destruct (negb _). }
  pose proof (render_params_upload_only h params E) as Hu. rewrite Hup in Hu.
  cbn [int_of_bool] in Hu.
  unfold submit in Hjob. rewrite E in Hjob. cbv zeta in Hjob.
  rewrite Hu in Hjob. rewrite bool_decide_false in Hjob by discriminate.
  destruct (selected h) as [[|layer layers]|] eqn:Hsel; [done| |done].
  destruct (decide _); [done|]. destruct (negb _); [done|].
  rewrite lookup_insert_ne in Hjob by discriminate.
  destruct (params !! "renderer") as [[]|]; try done.
  destruct (get_scene_info h _) as [e|scene_info]; [done|].
  rewrite lookup_insert_ne, lookup_insert_ne, Hu in Hjob by discriminate.
  rewrite bool_decide_true in Hjob by done.
  destruct (create_local_paths h _ fs) as [[e|] fs'']; [done|].
  rewrite lookup_insert_ne, lookup_insert_eq in Hjob by discriminate.
  rewrite lookup_delete_ne, lookup_insert_eq in Hjob by discriminate.
  injection Hjob as <- <-. cbn [job_layers job_scene_path job_params].
  split; [done|]. split; [by exists (layer :: layers)|]. split; [done|].
  split; [|split].
  - rewrite lookup_insert_ne by discriminate. apply lookup_delete_eq.
  - exists scene_info. apply lookup_insert_eq.
  - rewrite lookup_insert_ne, lookup_delete_ne, lookup_insert_ne, lookup_insert_ne
      by discriminate.
    done.
Qed.

Lemma submit_job_arguments_witness :
  ∃ j fs', submit (demo_host false) ∅ = (inr j, fs')
           ∧ job_layers j = Some "fg,bg"
           ∧ job_params j !! "selected_layers" = None.
Proof.
  edestruct (submit_job_arguments (demo_host false) ∅)
    as (_ & (layers & Hlayers & _ & Hjoined) & _ & Hsel & _); [reflexivity|].
  eexists _, _. split; [reflexivity|].
  cbn [selected demo_host] in Hlayers. injection Hlayers as <-.
  split; [exact Hjoined|exact Hsel].
Defined.

(** * The callbacks of the form *)

Lemma upload_only_toggle_lookup (checked : bool) (ui : gmap string bool) (name : string) :
  upload_only_toggle checked ui !! name
  = if bool_decide (name ∈ toggled) then Some (negb checked) else ui !! name.
Proof.
  unfold upload_only_toggle, enable, toggled. case_bool_decide as Hname.
  - repeat (apply elem_of_cons in Hname as [->|Hname];
            [destruct checked; cbv zeta; rewrite ?lookup_insert_ne by discriminate;
             apply lookup_insert_eq|]).
    by apply elem_of_nil in Hname.
  - assert (∀ x l, name ∉ x :: l → name ≠ x ∧ name ∉ l) as Hcons.
    { intros x l Hnot. split; [intros ->; apply Hnot; by left|].
      intros Hin. apply Hnot. by right. }
    repeat (apply Hcons in Hname as [? Hname]).
    destruct checked; cbv zeta; by rewrite !lookup_insert_ne.
Qed.

(** X24. On the two check boxes of V-Ray the last callback wins:
    [upload_only_toggle] enables them when [upload_only] is unchecked and
    disables them when it is checked, whatever renderer [change_renderer]
    was called with before, and [change_renderer] enables them for [vray]
    or [V-Ray] and disables them otherwise, whatever [upload_only_toggle]
    did before. *)
Theorem vray_boxes_last_callback (checked : bool) (renderer : string)
    (ui : gmap string bool) (box : string) :
  box = "vray_nightly" ∨ box = "use_vrscene" →
  upload_only_toggle checked (change_renderer renderer ui) !! box = Some (negb checked)
  ∧ change_renderer renderer (upload_only_toggle checked ui) !! box
    = Some (bool_decide (renderer = "vray" ∨ renderer = "V-Ray")).
Proof.
  intros Hbox. split.
  - rewrite upload_only_toggle_lookup. rewrite bool_decide_true; [done|].
    unfold toggled. destruct Hbox as [-> | ->]; by repeat constructor.
  - unfold change_renderer, enable. case_bool_decide as Hvray.
    + rewrite decide_True by done. cbv zeta.
      destruct Hbox as [-> | ->]; [|apply lookup_insert_eq].
      rewrite lookup_insert_ne by discriminate. apply lookup_insert_eq.
    + rewrite decide_False by done. cbv zeta.
      destruct Hbox as [-> | ->]; [|apply lookup_insert_eq].
      rewrite lookup_insert_ne by discriminate. apply lookup_insert_eq.
Qed.

Lemma vray_boxes_last_callback_witness :
  upload_only_toggle false (change_renderer "mr" ∅) !! "vray_nightly" = Some true
  ∧ change_renderer "mr" (upload_only_toggle false ∅) !! "vray_nightly" = Some false.
Proof.
  apply (vray_boxes_last_callback false "mr" ∅ "vray_nightly"). by left.
Defined.

(** X25. A second call of [upload_only_toggle] overrides the first: the
    flags after two calls are those after the second call alone, so that
    checking [upload_only] and unchecking it again enables all of the
    fifteen widgets, also those that were disabled before. *)
Theorem upload_only_toggle_twice (checked checked' : bool) (ui : gmap string bool) :
  upload_only_toggle checked' (upload_only_toggle checked ui)
  = upload_only_toggle checked' ui.
Proof.
  apply map_eq. intros name. rewrite !upload_only_toggle_lookup.
  by case_bool_decide.
Qed.
